(** * Snake: the movement, growth and food-placement core of [main.py]

    A shallow embedding of the [Snake] and [Food] classes and of the
    update part of [game_loop], followed by the properties of the
    game's specification.  Python integers are [Z], tuples are pairs,
    the body list is a [list] with the head at index 0, the occupied
    set is a [gset], an [IndexError] is [None]. *)

From stdpp Require Import base option list list_numbers gmap strings pretty.
From Stdlib Require Import ZArith Lia.

Local Open Scope Z_scope.

(** ** Game configuration *)

Definition SCREEN_WIDTH : Z := 600.
Definition SCREEN_HEIGHT : Z := 400.
Definition GRID_SIZE : Z := 20.
Definition COLUMNS : Z := SCREEN_WIDTH `div` GRID_SIZE.
Definition ROWS : Z := SCREEN_HEIGHT `div` GRID_SIZE.

(** A grid position [(x, y)]; directions are the same pairs. *)
Abbreviation Cell := (Z * Z)%type.

Definition UP : Cell := (0, -1).
Definition DOWN : Cell := (0, 1).
Definition LEFT : Cell := (-1, 0).
Definition RIGHT : Cell := (1, 0).

(** ** class Snake *)

Record Snake := mkSnake {
  body : list Cell;
  direction : Cell;
  _pending_growth : Z;
  _next_direction : Cell
}.

(** [Snake.__init__(start_pos)] *)
Definition Snake_init (start_pos : Cell) : Snake :=
  {| body := [start_pos; (start_pos.1 - 1, start_pos.2)];
     direction := RIGHT;
     _pending_growth := 0;
     _next_direction := RIGHT |}.

(** [self.body[0]]: an empty body raises. *)
Definition head (s : Snake) : option Cell := body s !! 0%nat.

Definition _is_opposite (a b : Cell) : bool :=
  bool_decide (a.1 = - b.1) && bool_decide (a.2 = - b.2).

Definition set_direction (new_dir : Cell) (s : Snake) : Snake :=
  if negb (_is_opposite new_dir (direction s))
  then {| body := body s; direction := direction s;
          _pending_growth := _pending_growth s; _next_direction := new_dir |}
  else s.

(** [list.pop()]: drops the last element, raises on the empty list. *)
Definition pop (l : list Cell) : option (list Cell) :=
  match l with
  | [] => None
  | _ :: _ => Some (removelast l)
  end.

Definition move (s : Snake) : option Snake :=
  let direction' := _next_direction s in
  h ← head s;
  let new_head := (h.1 + direction'.1, h.2 + direction'.2) in
  let body' := new_head :: body s in
  if bool_decide (0 < _pending_growth s)
  then Some {| body := body'; direction := direction';
               _pending_growth := _pending_growth s - 1;
               _next_direction := _next_direction s |}
  else
    body'' ← pop body';
    Some {| body := body''; direction := direction';
            _pending_growth := _pending_growth s;
            _next_direction := _next_direction s |}.

Definition grow (n : Z) (s : Snake) : Snake :=
  {| body := body s; direction := direction s;
     _pending_growth := _pending_growth s + Z.max 1 n;
     _next_direction := _next_direction s |}.

Definition hits_wall (s : Snake) : option bool :=
  '(x, y) ← head s;
  Some (bool_decide (x < 0) || bool_decide (x >= COLUMNS)
        || bool_decide (y < 0) || bool_decide (y >= ROWS)).

Definition hits_self (s : Snake) : option bool :=
  h ← head s;
  Some (bool_decide (h ∈ drop 1 (body s))).

Definition occupies (s : Snake) : gset Cell := list_to_set (body s).

(** [n] successive calls of [move]; the first failure aborts. *)
Fixpoint moves (n : nat) (s : Snake) : option Snake :=
  match n with
  | O => Some s
  | S n' => s' ← move s; moves n' s'
  end.

(** ** The random source

    [random.choice] consults the module-level generator.  The generator
    is a stream of draws; a computation that may raise and may draw is
    a function from the stream to a result and the rest of the stream. *)

Definition Rng := nat → nat.

Definition M (A : Type) : Type := Rng → option (A * Rng).

Definition ret {A} (a : A) : M A := λ rng, Some (a, rng).

Definition bind {A B} (m : M A) (k : A → M B) : M B :=
  λ rng, match m rng with
         | Some (a, rng') => k a rng'
         | None => None
         end.

(** A computation of [Snake] that raises or returns, and draws nothing. *)
Definition lift {A} (o : option A) : M A :=
  λ rng, match o with Some a => Some (a, rng) | None => None end.

Declare Scope game_scope.
Delimit Scope game_scope with game.
Notation "x <~ m ;; k" := (bind m (λ x, k))
  (at level 100, m at next level, right associativity) : game_scope.

(** [random.choice(seq)]: the element at a drawn index below [len(seq)];
    raises on the empty sequence. *)
Definition choice {A} (seq : list A) : M A :=
  λ rng, match seq !! (rng 0%nat `mod` length seq)%nat with
         | Some a => Some (a, λ i, rng (S i))
         | None => None
         end.

(** ** class Food *)

Record Food := mkFood { pos : Cell }.

(** [[(x, y) for x in range(COLUMNS) for y in range(ROWS)]] *)
Definition all_cells : list Cell :=
  x ← seqZ 0 COLUMNS; y ← seqZ 0 ROWS; [(x, y)].

(** [[c for c in all_cells if c not in occupied]] *)
Definition free_cells (occupied : gset Cell) : list Cell :=
  filter (λ c, c ∉ occupied) all_cells.

Definition _random_free_cell (occupied : gset Cell) : M Cell :=
  let free := free_cells occupied in
  match free with
  | [] => ret (0, 0)
  | _ :: _ => choice free
  end.

(** [Food.__init__(snake_cells)] *)
Definition Food_init (snake_cells : gset Cell) : M Food :=
  (p <~ _random_free_cell snake_cells;; ret (mkFood p))%game.

Definition respawn (snake_cells : gset Cell) (f : Food) : M Food :=
  (p <~ _random_free_cell snake_cells;; ret (mkFood p))%game.

(** ** game_loop *)

Inductive Key :=
  | K_ESCAPE | K_UP | K_w | K_DOWN | K_s | K_LEFT | K_a | K_RIGHT | K_d
  | K_RETURN | K_r | K_other.

Inductive Event := QUIT | KEYDOWN (key : Key) | OTHER.

(** The local variables of [game_loop]. *)
Record Game := mkGame {
  snake : Snake;
  food : Food;
  score : Z;
  running : bool;
  game_over : bool
}.

Definition start_new_game : M (Snake * Food * Z) :=
  (let start := (COLUMNS `div` 4, ROWS `div` 2) in
   let snake := Snake_init start in
   food <~ Food_init (occupies snake);;
   ret (snake, food, 0))%game.

Definition with_running (b : bool) (g : Game) : Game :=
  mkGame (snake g) (food g) (score g) b (game_over g).

Definition with_snake (s : Snake) (g : Game) : Game :=
  mkGame s (food g) (score g) (running g) (game_over g).

(** One iteration of [for event in pygame.event.get()]. *)
Definition handle_event (e : Event) (g : Game) : M Game :=
  match e with
  | QUIT => ret (with_running false g)
  | KEYDOWN key =>
      let g := match key with K_ESCAPE => with_running false g | _ => g end in
      if negb (game_over g) then
        match key with
        | K_UP | K_w => ret (with_snake (set_direction UP (snake g)) g)
        | K_DOWN | K_s => ret (with_snake (set_direction DOWN (snake g)) g)
        | K_LEFT | K_a => ret (with_snake (set_direction LEFT (snake g)) g)
        | K_RIGHT | K_d => ret (with_snake (set_direction RIGHT (snake g)) g)
        | _ => ret g
        end
      else
        match key with
        | K_RETURN | K_r =>
            (fresh <~ start_new_game;;
             let '(snake', food', score') := fresh in
             ret (mkGame snake' food' score' (running g) false))%game
        | _ => ret g
        end
  | OTHER => ret g
  end.

Fixpoint handle_events (evs : list Event) (g : Game) : M Game :=
  match evs with
  | [] => ret g
  | e :: evs' => (g' <~ handle_event e g;; handle_events evs' g')%game
  end.

(** The [if not game_over:] block: move, collision check, food check. *)
Definition update (g : Game) : M Game :=
  if negb (game_over g) then
    (snake1 <~ lift (move (snake g));;
     wall <~ lift (hits_wall snake1);;
     self <~ (if wall then ret true else lift (hits_self snake1));;
     let game_over' := if self then true else game_over g in
     h <~ lift (head snake1);;
     if bool_decide (h = pos (food g)) then
       let snake2 := grow 1 snake1 in
       let score' := score g + 1 in
       food' <~ respawn (occupies snake2) (food g);;
       ret (mkGame snake2 food' score' (running g) game_over')
     else
       ret (mkGame snake1 (food g) (score g) (running g) game_over'))%game
  else ret g.

(** One pass of the body of [while running]; drawing changes no state. *)
Definition frame (evs : list Event) (g : Game) : M Game :=
  (g' <~ handle_events evs g;; update g')%game.

(** The game state at the start of [game_loop]. *)
Definition new_game : M Game :=
  (fresh <~ start_new_game;;
   let '(snake0, food0, score0) := fresh in
   ret (mkGame snake0 food0 score0 true false))%game.

(** [game_loop] on the event batches of successive frames: the loop
    stops at the first frame that begins with [running] false. *)
Fixpoint frames (batches : list (list Event)) (g : Game) : M Game :=
  match batches with
  | [] => ret g
  | evs :: rest =>
      if running g then (g' <~ frame evs g;; frames rest g')%game else ret g
  end.

Definition game_loop (batches : list (list Event)) : M Game :=
  (g <~ new_game;; frames batches g)%game.

(** States at a frame boundary of some run of [game_loop], the
    generator being arbitrary at each frame. *)
Inductive reachable : Game → Prop :=
  | reach_new rng g rng' :
      new_game rng = Some (g, rng') → reachable g
  | reach_frame g evs rng g' rng' :
      reachable g → running g = true →
      frame evs g rng = Some (g', rng') → reachable g'.

(** ** Vocabulary of the properties *)

(** The exact opposite of a direction vector. *)
Definition opposite (d : Cell) : Cell := (- d.1, - d.2).

(** The cells of the COLUMNS-by-ROWS grid. *)
Definition in_grid (c : Cell) : Prop :=
  0 ≤ c.1 < COLUMNS ∧ 0 ≤ c.2 < ROWS.

#[global] Instance in_grid_dec (c : Cell) : Decision (in_grid c).
Proof. unfold in_grid. apply _. Defined.

(** The value of [snake.hits_wall() or snake.hits_self()] for a snake
    with head [nh] and tail cells [rest]. *)
Definition collided (nh : Cell) (rest : list Cell) : bool :=
  bool_decide (¬ in_grid nh) || bool_decide (nh ∈ rest).

(** The body covers the whole grid. *)
Definition board_full (b : list Cell) : Prop := ∀ c, in_grid c → c ∈ b.

Record game_inv (g : Game) : Prop := mk_game_inv {
  inv_length : (2 ≤ length (body (snake g)))%nat;
  inv_pending : 0 ≤ _pending_growth (snake g);
  inv_food_grid : in_grid (pos (food g));
  inv_food :
    pos (food g) ∉ body (snake g) ∨
    (board_full (body (snake g)) ∧ pos (food g) = (0, 0) ∧
     (game_over g = true ∨ 1 ≤ _pending_growth (snake g)))
}.

(** ** A run that fills the board: its keys and its states *)

(** The direction an arrow key (or its letter) asks for. *)
Definition arrow (key : Key) : option Cell :=
  match key with
  | K_UP | K_w => Some UP
  | K_DOWN | K_s => Some DOWN
  | K_LEFT | K_a => Some LEFT
  | K_RIGHT | K_d => Some RIGHT
  | _ => None
  end.

(** The cell in front of the head of [b] in the direction of [key]. *)
Definition advance (b : list Cell) (key : Key) : Cell :=
  match b, arrow key with
  | h :: _, Some d => (h.1 + d.1, h.2 + d.2)
  | _, _ => (0, 0)
  end.

(** The body after the keys [keys], one per tick, when every step eats. *)
Fixpoint walk (b : list Cell) (keys : list Key) : list Cell :=
  match keys with
  | [] => b
  | key :: keys' => walk (advance b key :: b) keys'
  end.

(** Where the food has to be for the next step to eat it. *)
Definition target (b : list Cell) (keys : list Key) : Cell :=
  match keys with
  | [] => (0, 0)
  | key :: _ => advance b key
  end.

(** The committed direction after the keys [keys], one per tick. *)
Fixpoint last_dir (d : Cell) (keys : list Key) : Cell :=
  match keys with
  | [] => d
  | key :: keys' => last_dir (default d (arrow key)) keys'
  end.

(** Every step is an accepted turn onto a grid cell off the body. *)
Fixpoint path_ok (b : list Cell) (d : Cell) (keys : list Key) : bool :=
  match keys with
  | [] => true
  | key :: keys' =>
      match arrow key with
      | Some d' =>
          negb (_is_opposite d' d)
          && bool_decide (in_grid (advance b key))
          && bool_decide (advance b key ∉ b)
          && path_ok (advance b key :: b) d' keys'
      | None => false
      end
  end.

(** A playing game whose snake has just eaten. *)
Definition eating (b : list Cell) (d : Cell) (n : Z) (f : Cell) : Game :=
  mkGame (mkSnake b d 1 d) (mkFood f) n true false.

(** Up to the top row, left to the corner, then down onto the first food. *)
Definition opening : list (list Event) :=
  repeat [KEYDOWN K_UP] 10 ++ repeat [KEYDOWN K_LEFT] 7 ++ [[KEYDOWN K_DOWN]].

(** Down the first column, then back and forth along the rows, bottom
    row first, ending leftwards on the top row next to the corner. *)
Definition tour : list Key :=
  repeat K_DOWN 18 ++ repeat K_RIGHT 29
  ++ concat (repeat ([K_UP] ++ repeat K_LEFT 28 ++ [K_UP] ++ repeat K_RIGHT 28) 9)
  ++ [K_UP] ++ repeat K_LEFT 28.

(** The game once the snake has eaten along the whole tour. *)
Definition full_board : Game :=
  eating (walk [(0, 1); (0, 0)] tour) LEFT 599 (0, 0).

(** ** Shape of the snake during play *)

(** The four direction vectors of the key handler. *)
Definition unit_dir (d : Cell) : Prop :=
  d = UP ∨ d = DOWN ∨ d = LEFT ∨ d = RIGHT.

(** Each cell is one step of a direction vector away from the next one. *)
Fixpoint chain (b : list Cell) : Prop :=
  match b with
  | c :: rest =>
      match rest with
      | c' :: _ => unit_dir (c.1 - c'.1, c.2 - c'.2)
      | [] => True
      end ∧ chain rest
  | [] => True
  end.

(** What every frame of [game_loop] keeps true of its variables. *)
Record play_inv (g : Game) : Prop := mk_play_inv {
  pi_direction : unit_dir (direction (snake g));
  pi_next : unit_dir (_next_direction (snake g));
  pi_turn : _next_direction (snake g) ≠ opposite (direction (snake g));
  pi_neck : ∃ h n r, body (snake g) = h :: n :: r ∧
      h = (n.1 + (direction (snake g)).1, n.2 + (direction (snake g)).2);
  pi_chain : chain (body (snake g));
  pi_pending : 0 ≤ _pending_growth (snake g) ≤ 1;
  pi_score :
    Z.of_nat (length (body (snake g))) + _pending_growth (snake g) = score g + 2;
  pi_tail_grid : Forall in_grid (drop 1 (body (snake g)));
  pi_tail_NoDup : NoDup (drop 1 (body (snake g)));
  pi_playing :
    game_over g = false →
    Forall in_grid (body (snake g)) ∧ NoDup (body (snake g))
}.

(** ** Drawing

    The screen is the list of the drawing calls made on it, in order. *)

Abbreviation Color := (Z * Z * Z)%type.

Definition COLOR_BG : Color := (18, 18, 18).
Definition COLOR_GRID : Color := (28, 28, 28).
Definition COLOR_SNAKE : Color := (80, 200, 120).
Definition COLOR_SNAKE_HEAD : Color := (100, 230, 150).
Definition COLOR_FOOD : Color := (235, 64, 52).
Definition COLOR_TEXT : Color := (230, 230, 230).
Definition COLOR_GAME_OVER : Color := (255, 100, 100).

(** [pygame.Rect(left, top, width, height)] *)
Record Rect := mkRect {
  rect_left : Z;
  rect_top : Z;
  rect_width : Z;
  rect_height : Z
}.

Inductive DrawOp :=
  | Fill (color : Color)
  | Line (color : Color) (start_pos end_pos : Z * Z) (width : Z)
  | DrawRect (color : Color) (rect : Rect)
  | Blit (text : string) (size : Z) (color : Color) (center : Z * Z).

(** [range(0, stop, step)] for a positive [step]. *)
Definition range_step (stop step : Z) : list Z :=
  (λ i, i * step) <$> seqZ 0 ((stop + step - 1) `div` step).

Definition draw_grid : list DrawOp :=
  ((λ x, Line COLOR_GRID (x, 0) (x, SCREEN_HEIGHT) 1)
     <$> range_step SCREEN_WIDTH GRID_SIZE)
  ++ ((λ y, Line COLOR_GRID (0, y) (SCREEN_WIDTH, y) 1)
        <$> range_step SCREEN_HEIGHT GRID_SIZE).

(** The [rect] of [draw_rect_cell]. *)
Definition cell_rect (cell : Cell) : Rect :=
  let '(x, y) := cell in
  mkRect (x * GRID_SIZE) (y * GRID_SIZE) GRID_SIZE GRID_SIZE.

Definition draw_rect_cell (color : Color) (cell : Cell) : list DrawOp :=
  [DrawRect color (cell_rect cell)].

(** [render_text]: the label of [text] blitted centred at [center]. *)
Definition render_text (text : string) (size : Z) (color : Color)
    (center : Z * Z) : list DrawOp :=
  [Blit text size color center].

(** The [# Draw] part of a frame. *)
Definition draw (g : Game) : list DrawOp :=
  [Fill COLOR_BG]
  ++ draw_grid
  ++ draw_rect_cell COLOR_FOOD (pos (food g))
  ++ match body (snake g) with
     | [] => []
     | h :: _ =>
         draw_rect_cell COLOR_SNAKE_HEAD h
         ++ (segment ← drop 1 (body (snake g)); draw_rect_cell COLOR_SNAKE segment)
     end
  ++ render_text ("Score: " +:+ pretty (score g)) 20 COLOR_TEXT (70, 18)
  ++ (if game_over g then
        render_text "GAME OVER" 36 COLOR_GAME_OVER
          (SCREEN_WIDTH `div` 2, SCREEN_HEIGHT `div` 2 - 20)
        ++ render_text "Press Enter or R to Restart" 20 COLOR_TEXT
             (SCREEN_WIDTH `div` 2, SCREEN_HEIGHT `div` 2 + 16)
        ++ render_text "Esc to Quit" 18 (180, 180, 180)
             (SCREEN_WIDTH `div` 2, SCREEN_HEIGHT `div` 2 + 42)
      else []).

(** The rectangle lies within the window. *)
Definition on_screen (r : Rect) : Prop :=
  0 ≤ rect_left r ∧ rect_left r + rect_width r ≤ SCREEN_WIDTH ∧
  0 ≤ rect_top r ∧ rect_top r + rect_height r ≤ SCREEN_HEIGHT.

(** The two rectangles share a pixel. *)
Definition overlap (r1 r2 : Rect) : Prop :=
  rect_left r1 < rect_left r2 + rect_width r2 ∧
  rect_left r2 < rect_left r1 + rect_width r1 ∧
  rect_top r1 < rect_top r2 + rect_height r2 ∧
  rect_top r2 < rect_top r1 + rect_height r1.

(** ** Kinds of events *)

(** The events on which a finished game starts again. *)
Definition is_restart (e : Event) : Prop :=
  e = KEYDOWN K_RETURN ∨ e = KEYDOWN K_r.

(** The events that end the loop. *)
Definition is_quit (e : Event) : Prop :=
  e = QUIT ∨ e = KEYDOWN K_ESCAPE.

(** ** The model on the start position *)

Example grid_size : COLUMNS = 30 ∧ ROWS = 20 ∧ length all_cells = 600%nat.
Proof. repeat split; vm_compute; reflexivity. Qed.

Example start_snake :
  Snake_init (COLUMNS `div` 4, ROWS `div` 2)
    = mkSnake [(7, 10); (6, 10)] RIGHT 0 RIGHT.
Proof. reflexivity. Qed.

Example move_start :
  move (Snake_init (7, 10)) = Some (mkSnake [(8, 10); (7, 10)] RIGHT 0 RIGHT).
Proof. reflexivity. Qed.

Example reversal_rejected :
  set_direction LEFT (Snake_init (7, 10)) = Snake_init (7, 10)
  ∧ _next_direction (set_direction UP (Snake_init (7, 10))) = UP.
Proof. split; reflexivity. Qed.

Example start_is_safe :
  hits_wall (Snake_init (7, 10)) = Some false
  ∧ hits_self (Snake_init (7, 10)) = Some false.
Proof. split; vm_compute; reflexivity. Qed.

(** ** Snake: basic facts *)

Lemma is_opposite_true (a b : Cell) :
  _is_opposite a b = true ↔ a = opposite b.
Proof.
  destruct a as [a1 a2], b as [b1 b2]. unfold _is_opposite, opposite. simpl.
  rewrite andb_true_iff, !bool_decide_eq_true. split.
  - intros [-> ->]. reflexivity.
  - intros [= -> ->]. split; reflexivity.
Qed.

Lemma is_opposite_opposite (d : Cell) : _is_opposite (opposite d) d = true.
Proof. apply is_opposite_true. reflexivity. Qed.

Lemma set_direction_rejected (s : Snake) : set_direction (opposite (direction s)) s = s.
Proof. unfold set_direction. rewrite is_opposite_opposite. reflexivity. Qed.

Lemma set_direction_cases (d : Cell) (s : Snake) :
  set_direction d s =
    if decide (d = opposite (direction s)) then s
    else mkSnake (body s) (direction s) (_pending_growth s) d.
Proof.
  unfold set_direction. destruct (decide _) as [Heq | Hne].
  - apply is_opposite_true in Heq. rewrite Heq. reflexivity.
  - destruct (_is_opposite d (direction s)) eqn:E; [| reflexivity].
    apply is_opposite_true in E. contradiction.
Qed.

Lemma set_direction_body d s : body (set_direction d s) = body s.
Proof. unfold set_direction. destruct (negb _); reflexivity. Qed.

Lemma set_direction_direction d s : direction (set_direction d s) = direction s.
Proof. unfold set_direction. destruct (negb _); reflexivity. Qed.

Lemma set_direction_pending d s :
  _pending_growth (set_direction d s) = _pending_growth s.
Proof. unfold set_direction. destruct (negb _); reflexivity. Qed.

Lemma removelast_cons_length (c : Cell) (l : list Cell) :
  length (removelast (c :: l)) = length l.
Proof.
  revert c. induction l as [| x l IH]; intros c; [reflexivity |].
  change (removelast (c :: x :: l)) with (c :: removelast (x :: l)).
  cbn [length]. rewrite IH. reflexivity.
Qed.

Lemma removelast_cons_cons (c x : Cell) (l : list Cell) :
  removelast (c :: x :: l) = c :: removelast (x :: l).
Proof. reflexivity. Qed.

(** [move] on a snake that has a head, by cases on the pending growth. *)
Lemma move_grows (s : Snake) (h : Cell) (t : list Cell) :
  body s = h :: t → 0 < _pending_growth s →
  move s = Some (mkSnake
    ((h.1 + (_next_direction s).1, h.2 + (_next_direction s).2) :: body s)
    (_next_direction s) (_pending_growth s - 1) (_next_direction s)).
Proof.
  intros Hb Hp. unfold move, head. rewrite Hb. simpl.
  rewrite bool_decide_eq_true_2 by done. reflexivity.
Qed.

Lemma move_slides (s : Snake) (h : Cell) (t : list Cell) :
  body s = h :: t → _pending_growth s ≤ 0 →
  move s = Some (mkSnake
    ((h.1 + (_next_direction s).1, h.2 + (_next_direction s).2)
       :: removelast (body s))
    (_next_direction s) (_pending_growth s) (_next_direction s)).
Proof.
  intros Hb Hp. unfold move, head. rewrite Hb. simpl.
  rewrite bool_decide_eq_false_2 by lia. reflexivity.
Qed.

Lemma move_None (s : Snake) : body s = [] → move s = None.
Proof. intros Hb. unfold move, head. rewrite Hb. reflexivity. Qed.

Lemma move_length_le (s s' : Snake) :
  move s = Some s' → (length (body s) ≤ length (body s'))%nat.
Proof.
  destruct (body s) as [| h t] eqn:Hb.
  - rewrite move_None by done. discriminate.
  - destruct (decide (0 < _pending_growth s)) as [Hp | Hp].
    + rewrite (move_grows s h t) by done. intros [= <-]. simpl. rewrite Hb. simpl. lia.
    + rewrite (move_slides s h t) by (done || lia). intros [= <-]. simpl.
      rewrite Hb, removelast_cons_length. simpl. lia.
Qed.

Lemma move_is_Some (s : Snake) : body s ≠ [] → is_Some (move s).
Proof.
  destruct (body s) as [| h t] eqn:Hb; [done | intros _].
  destruct (decide (0 < _pending_growth s)) as [Hp | Hp].
  - rewrite (move_grows s h t) by done. eauto.
  - rewrite (move_slides s h t) by (done || lia). eauto.
Qed.

(** While growth is pending every move lengthens the body by one. *)
Lemma moves_growing (k : nat) (s : Snake) :
  body s ≠ [] → Z.of_nat k ≤ _pending_growth s →
  ∃ s', moves k s = Some s' ∧ body s' ≠ [] ∧
        length (body s') = (length (body s) + k)%nat ∧
        _pending_growth s' = _pending_growth s - Z.of_nat k.
Proof.
  revert s. induction k as [| k IH]; intros s Hb Hk.
  - exists s. simpl. repeat split; [done | lia | lia].
  - destruct (body s) as [| h t] eqn:Eb; [done |].
    simpl moves. rewrite (move_grows s h t) by (done || lia). simpl.
    edestruct IH as (s' & Hm & Hne & Hlen & Hpg); last first.
    + exists s'. split; [exact Hm |]. split; [exact Hne |].
      simpl in Hlen, Hpg. rewrite Eb in Hlen. simpl in Hlen. simpl. split; lia.
    + simpl. lia.
    + simpl. done.
Qed.

Lemma iter_set_direction (n : nat) (d : Cell) (s : Snake) :
  Nat.iter (S n) (set_direction d) s = set_direction d s.
Proof.
  induction n as [| n IH]; [reflexivity |].
  change (Nat.iter (S (S n)) (set_direction d) s)
    with (set_direction d (Nat.iter (S n) (set_direction d) s)).
  rewrite IH. unfold set_direction at 1. rewrite set_direction_direction.
  unfold set_direction. destruct (negb _); reflexivity.
Qed.

Lemma default_last_cons (a d : Cell) (l : list Cell) :
  default a (last (d :: l)) = default d (last l).
Proof.
  destruct l as [| x l]; [reflexivity |].
  change (last (d :: x :: l)) with (last (x :: l)).
  destruct (last (x :: l)) eqn:E; [reflexivity |].
  apply last_None in E. discriminate.
Qed.

(** A run of [set_direction] calls leaves the last accepted one in the buffer. *)
Lemma set_directions_last (ds : list Cell) (s : Snake) :
  foldl (λ s d, set_direction d s) s ds =
    mkSnake (body s) (direction s) (_pending_growth s)
      (default (_next_direction s)
         (last (filter (λ d, d ≠ opposite (direction s)) ds))).
Proof.
  revert s. induction ds as [| d ds IH]; intros s.
  - destruct s; reflexivity.
  - simpl foldl. rewrite IH.
    rewrite set_direction_body, set_direction_direction, set_direction_pending.
    f_equal. rewrite set_direction_cases.
    destruct (decide (d = opposite (direction s))) as [Heq | Hne].
    + rewrite filter_cons_False by (intros H; apply H; exact Heq). reflexivity.
    + rewrite filter_cons_True by exact Hne. simpl _next_direction.
      symmetry. apply default_last_cons.
Qed.

(** ** Food: the free cells and the draw *)

Lemma elem_of_all_cells (c : Cell) : c ∈ all_cells ↔ in_grid c.
Proof.
  unfold all_cells, in_grid. rewrite list_elem_of_bind. split.
  - intros (x & Hy & Hx). apply list_elem_of_bind in Hy as (y & Hc & Hy).
    apply list_elem_of_singleton in Hc as ->. simpl.
    apply elem_of_seqZ in Hx, Hy. lia.
  - intros [Hx Hy]. exists c.1. split.
    + apply list_elem_of_bind. exists c.2. split.
      * destruct c. simpl. apply list_elem_of_singleton. reflexivity.
      * apply elem_of_seqZ. lia.
    + apply elem_of_seqZ. lia.
Qed.

Lemma elem_of_free_cells (occupied : gset Cell) (c : Cell) :
  c ∈ free_cells occupied ↔ in_grid c ∧ c ∉ occupied.
Proof.
  unfold free_cells. rewrite list_elem_of_filter, elem_of_all_cells. tauto.
Qed.

Lemma free_cells_nil (occupied : gset Cell) :
  free_cells occupied = [] ↔ ∀ c, in_grid c → c ∈ occupied.
Proof.
  split.
  - intros Hnil c Hc. destruct (decide (c ∈ occupied)) as [| Hn]; [done |].
    assert (c ∈ free_cells occupied) as Hin by (apply elem_of_free_cells; done).
    rewrite Hnil in Hin. by apply not_elem_of_nil in Hin.
  - intros Hall. destruct (free_cells occupied) as [| c l] eqn:E; [done |].
    assert (c ∈ free_cells occupied) as Hin by (rewrite E; left).
    apply elem_of_free_cells in Hin as [Hg Hn]. destruct Hn. by apply Hall.
Qed.

Lemma origin_in_grid : in_grid (0, 0).
Proof. unfold in_grid. simpl. vm_compute. intuition discriminate. Qed.

(** [random.choice] on a non-empty sequence returns one of its elements. *)
Lemma choice_elem {A} (seq : list A) (rng : Rng) :
  seq ≠ [] → ∃ a rng', choice seq rng = Some (a, rng') ∧ a ∈ seq.
Proof.
  intros Hne. unfold choice.
  assert (rng 0%nat `mod` length seq < length seq)%nat as Hlt.
  { apply Nat.mod_upper_bound. destruct seq; [done | simpl; lia]. }
  apply lookup_lt_is_Some in Hlt as [a Ha]. rewrite Ha.
  eexists _, _. split; [reflexivity |]. by eapply list_elem_of_lookup_2.
Qed.

(** Every element can be drawn. *)
Lemma choice_any {A} (seq : list A) (a : A) (rng : Rng) :
  a ∈ seq → ∃ i, choice seq (λ n, match n with O => i | S n' => rng n' end)
                   = Some (a, rng).
Proof.
  intros Hin. apply list_elem_of_lookup in Hin as [i Hi]. exists i.
  unfold choice. rewrite Nat.mod_small by (by eapply lookup_lt_Some).
  rewrite Hi. reflexivity.
Qed.

Lemma random_free_cell_free (occupied : gset Cell) (rng : Rng) :
  free_cells occupied ≠ [] →
  ∃ p rng', _random_free_cell occupied rng = Some (p, rng')
            ∧ in_grid p ∧ p ∉ occupied.
Proof.
  intros Hne. unfold _random_free_cell.
  destruct (choice_elem (free_cells occupied) rng Hne) as (p & rng' & Hc & Hin).
  destruct (free_cells occupied) as [| c l] eqn:E; [done |].
  exists p, rng'. split; [exact Hc |].
  rewrite <- E in Hin. by apply elem_of_free_cells in Hin.
Qed.

Lemma random_free_cell_full (occupied : gset Cell) (rng : Rng) :
  free_cells occupied = [] →
  _random_free_cell occupied rng = Some ((0, 0), rng).
Proof. intros Hnil. unfold _random_free_cell. rewrite Hnil. reflexivity. Qed.

(** Any free cell is a possible outcome. *)
Lemma random_free_cell_any (occupied : gset Cell) (p : Cell) (rng : Rng) :
  in_grid p → p ∉ occupied →
  ∃ rng0, _random_free_cell occupied rng0 = Some (p, rng).
Proof.
  intros Hg Hn.
  assert (p ∈ free_cells occupied) as Hin by (by apply elem_of_free_cells).
  destruct (choice_any _ _ rng Hin) as [i Hi]. eexists.
  unfold _random_free_cell.
  destruct (free_cells occupied) as [| c l] eqn:E; [by apply not_elem_of_nil in Hin |].
  exact Hi.
Qed.

(** The result is always some cell: a free one, or the fallback. *)
Lemma random_free_cell_total (occupied : gset Cell) (rng : Rng) :
  ∃ p rng', _random_free_cell occupied rng = Some (p, rng') ∧
    ((in_grid p ∧ p ∉ occupied) ∨
     (p = (0, 0) ∧ rng' = rng ∧ ∀ c, in_grid c → c ∈ occupied)).
Proof.
  destruct (free_cells occupied) as [| c l] eqn:E.
  - exists (0, 0), rng. split; [by apply random_free_cell_full |].
    right. repeat split. by apply free_cells_nil.
  - destruct (random_free_cell_free occupied rng) as (p & rng' & H & Hg & Hn).
    { by rewrite E. }
    exists p, rng'. split; [exact H | by left].
Qed.

(** ** Snake: what a successful [move] looks like *)

Lemma move_Some_inv (s s1 : Snake) :
  move s = Some s1 →
  ∃ h t, body s = h :: t ∧
    direction s1 = _next_direction s ∧ _next_direction s1 = _next_direction s ∧
    ((0 < _pending_growth s ∧ _pending_growth s1 = _pending_growth s - 1 ∧
      body s1 = (h.1 + (_next_direction s).1, h.2 + (_next_direction s).2) :: body s)
     ∨
     (_pending_growth s ≤ 0 ∧ _pending_growth s1 = _pending_growth s ∧
      body s1 = (h.1 + (_next_direction s).1, h.2 + (_next_direction s).2)
                  :: removelast (body s))).
Proof.
  destruct (body s) as [| h t] eqn:Hb.
  - rewrite move_None by done. discriminate.
  - intros Hm. exists h, t. split; [reflexivity |].
    destruct (decide (0 < _pending_growth s)) as [Hp | Hp].
    + rewrite (move_grows s h t) in Hm by done. injection Hm as <-. simpl.
      rewrite Hb. split; [done |]. split; [done |]. left. done.
    + rewrite (move_slides s h t) in Hm by (done || lia). injection Hm as <-. simpl.
      rewrite Hb. split; [done |]. split; [done |]. right. split; [lia | done].
Qed.

Lemma elem_of_removelast (c : Cell) (l : list Cell) :
  c ∈ removelast l → c ∈ l.
Proof.
  induction l as [| x l IH]; [done |].
  destruct l as [| y l]; [simpl; intros H; by apply not_elem_of_nil in H |].
  rewrite removelast_cons_cons. rewrite !elem_of_cons.
  intros [-> | H]; [by left | right]. apply elem_of_cons. by apply IH.
Qed.

(** After a move the body is the new head followed by old body cells. *)
Lemma move_body (s s1 : Snake) :
  move s = Some s1 →
  ∃ nh rest, body s1 = nh :: rest ∧ head s1 = Some nh ∧
    (length (body s) ≤ S (length rest))%nat ∧
    (∀ c, c ∈ rest → c ∈ body s) ∧
    (0 < _pending_growth s → rest = body s) ∧
    (0 ≤ _pending_growth s → 0 ≤ _pending_growth s1).
Proof.
  intros Hm. apply move_Some_inv in Hm as (h & t & Hb & _ & _ & Hcase).
  destruct Hcase as [(Hp & Hp1 & Hb1) | (Hp & Hp1 & Hb1)].
  - eexists _, (body s). unfold head. rewrite Hb1. simpl.
    repeat split; (done || lia).
  - eexists _, (removelast (body s)). unfold head. rewrite Hb1. simpl.
    repeat split; try (done || lia).
    + rewrite Hb, removelast_cons_length. simpl. lia.
    + intros c. apply elem_of_removelast.
Qed.

Lemma hits_wall_head (s : Snake) (nh : Cell) (rest : list Cell) :
  body s = nh :: rest → hits_wall s = Some (bool_decide (¬ in_grid nh)).
Proof.
  intros Hb. unfold hits_wall, head. rewrite Hb. destruct nh as [x y]. simpl.
  f_equal. unfold in_grid. simpl.
  repeat case_bool_decide; simpl; try reflexivity; exfalso; lia.
Qed.

Lemma hits_self_head (s : Snake) (nh : Cell) (rest : list Cell) :
  body s = nh :: rest → hits_self s = Some (bool_decide (nh ∈ rest)).
Proof. intros Hb. unfold hits_self, head. rewrite Hb. reflexivity. Qed.

(** ** The update step, case by case *)

Lemma update_game_over (g : Game) (rng : Rng) :
  game_over g = true → update g rng = Some (g, rng).
Proof. intros H. unfold update. rewrite H. reflexivity. Qed.

Lemma update_playing (g : Game) (s1 : Snake) (nh : Cell) (rest : list Cell) (rng : Rng) :
  game_over g = false → move (snake g) = Some s1 → body s1 = nh :: rest →
  update g rng =
    if bool_decide (nh = pos (food g)) then
      match _random_free_cell (occupies (grow 1 s1)) rng with
      | Some (p, rng') =>
          Some (mkGame (grow 1 s1) (mkFood p) (score g + 1) (running g)
                       (collided nh rest), rng')
      | None => None
      end
    else Some (mkGame s1 (food g) (score g) (running g) (collided nh rest), rng).
Proof.
  intros Hgo Hm Hb. unfold update, bind, lift, ret. rewrite Hgo, Hm. simpl.
  rewrite (hits_wall_head s1 nh rest Hb), (hits_self_head s1 nh rest Hb).
  unfold head. rewrite Hb. simpl. unfold collided.
  destruct (bool_decide (¬ in_grid nh)); simpl;
    destruct (bool_decide (nh = pos (food g))); simpl;
    unfold respawn, bind, ret;
    try destruct (_random_free_cell _ rng) as [[p rng'] |];
    try destruct (bool_decide (nh ∈ rest)); reflexivity.
Qed.

(** ** The invariant of the game loop *)

Lemma elem_of_occupies (c : Cell) (s : Snake) : c ∈ occupies s ↔ c ∈ body s.
Proof. unfold occupies. apply elem_of_list_to_set. Qed.

Lemma start_new_game_spec (rng : Rng) :
  ∃ f rng', start_new_game rng
              = Some ((Snake_init (COLUMNS `div` 4, ROWS `div` 2), f, 0), rng')
    ∧ in_grid (pos f)
    ∧ pos f ∉ body (Snake_init (COLUMNS `div` 4, ROWS `div` 2)).
Proof.
  unfold start_new_game, Food_init, bind, ret.
  set (s := Snake_init _).
  destruct (random_free_cell_total (occupies s) rng) as (p & rng' & Hp & Hcase).
  rewrite Hp. exists (mkFood p), rng'. split; [reflexivity |]. simpl.
  destruct Hcase as [[Hg Hn] | (_ & _ & Hfull)].
  - split; [exact Hg |]. intros Hin. apply Hn. by apply elem_of_occupies.
  - exfalso. specialize (Hfull (0, 0) origin_in_grid).
    apply elem_of_occupies in Hfull. subst s. vm_compute in Hfull.
    repeat (apply elem_of_cons in Hfull as [Hfull | Hfull]; [discriminate |]).
    by apply not_elem_of_nil in Hfull.
Qed.

Lemma new_game_inv (rng : Rng) :
  ∃ g rng', new_game rng = Some (g, rng') ∧ game_inv g ∧
    snake g = Snake_init (COLUMNS `div` 4, ROWS `div` 2) ∧ score g = 0 ∧
    running g = true ∧ game_over g = false.
Proof.
  destruct (start_new_game_spec rng) as (f & rng' & Hs & Hg & Hn).
  unfold new_game, bind, ret. rewrite Hs. eexists _, _. split; [reflexivity |].
  split; [| done]. split; simpl; [lia | lia | exact Hg | by left].
Qed.

Lemma set_direction_inv (d : Cell) (g : Game) :
  game_inv g → game_inv (with_snake (set_direction d (snake g)) g).
Proof.
  intros [Hl Hp Hg Hf]. split; simpl;
    rewrite ?set_direction_body, ?set_direction_pending; done.
Qed.

Lemma handle_event_inv (e : Event) (g : Game) (rng : Rng) :
  game_inv g →
  ∃ g' rng', handle_event e g rng = Some (g', rng') ∧ game_inv g'.
Proof.
  intros Hinv. destruct e as [| key |]; simpl.
  - eexists _, _. split; [reflexivity |]. destruct Hinv. by split.
  - assert (game_inv (with_running false g)) as Hinv' by (destruct Hinv; by split).
    destruct (game_over g) eqn:Hgo.
    + assert (∀ g0 : Game, running g0 = running g0 →
        ∃ g' rng', bind start_new_game (λ fresh, let '(snake', food', score') := fresh in
            ret (mkGame snake' food' score' (running g0) false)) rng = Some (g', rng')
          ∧ game_inv g') as Hnew.
      { intros g0 _. destruct (start_new_game_spec rng) as (f & rng' & Hs & Hg & Hn).
        unfold bind, ret. rewrite Hs. eexists _, _. split; [reflexivity |].
        split; simpl; [lia | lia | exact Hg | by left]. }
      destruct key; simpl; rewrite ?Hgo; simpl;
        first [ apply Hnew; reflexivity
              | eexists _, _; split; [reflexivity | done] ].
    + destruct key; simpl; rewrite ?Hgo; simpl;
        eexists _, _; (split; [reflexivity |]);
        first [ by apply set_direction_inv | done ].
  - eexists _, _. split; [reflexivity | done].
Qed.

Lemma handle_events_inv (evs : list Event) (g : Game) (rng : Rng) :
  game_inv g →
  ∃ g' rng', handle_events evs g rng = Some (g', rng') ∧ game_inv g'.
Proof.
  revert g rng. induction evs as [| e evs IH]; intros g rng Hinv.
  - eexists _, _. split; [reflexivity | done].
  - destruct (handle_event_inv e g rng Hinv) as (g1 & rng1 & H1 & Hinv1).
    destruct (IH g1 rng1 Hinv1) as (g2 & rng2 & H2 & Hinv2).
    exists g2, rng2. split; [| done]. simpl. unfold bind. rewrite H1. exact H2.
Qed.

Lemma collided_full (nh : Cell) (rest : list Cell) :
  board_full rest → collided nh rest = true.
Proof.
  intros Hfull. unfold collided.
  destruct (decide (in_grid nh)) as [Hg | Hg].
  - rewrite (bool_decide_eq_true_2 (nh ∈ rest)) by (by apply Hfull).
    apply orb_true_r.
  - rewrite (bool_decide_eq_true_2 (¬ in_grid nh)) by done. reflexivity.
Qed.

Lemma update_inv (g : Game) (rng : Rng) :
  game_inv g →
  ∃ g' rng', update g rng = Some (g', rng') ∧ game_inv g'.
Proof.
  intros Hinv. destruct (game_over g) eqn:Hgo.
  { exists g, rng. split; [by apply update_game_over | done]. }
  destruct Hinv as [Hl Hp Hg Hf].
  destruct (move_is_Some (snake g)) as [s1 Hm].
  { destruct (body (snake g)); [simpl in Hl; lia | done]. }
  destruct (move_body _ _ Hm) as (nh & rest & Hb1 & _ & Hlen & Hsub & Hkeep & Hp1).
  rewrite (update_playing g s1 nh rest rng Hgo Hm Hb1).
  case_bool_decide as Heat.
  - destruct (random_free_cell_total (occupies (grow 1 s1)) rng)
      as (p & rng' & Hr & Hcase).
    rewrite Hr. eexists _, _. split; [reflexivity |].
    destruct Hcase as [[Hpg Hpn] | (-> & _ & Hfull)].
    + split; simpl; [rewrite Hb1; simpl; lia | lia | exact Hpg |].
      left. intros Hin. apply Hpn. by apply elem_of_occupies.
    + split; simpl; [rewrite Hb1; simpl; lia | lia | exact origin_in_grid |].
      right. split; [| split; [reflexivity | right; lia]].
      intros c Hc. apply (elem_of_occupies c (grow 1 s1)). by apply Hfull.
  - eexists _, _. split; [reflexivity |].
    split; simpl; [rewrite Hb1; simpl; lia | lia | exact Hg |].
    destruct Hf as [Hf | (Hfull & Hz & [Hover | Hpend])].
    + left. rewrite Hb1. intros [Heq | Hin]%elem_of_cons; [by destruct Heat |].
      by apply Hf, Hsub.
    + congruence.
    + right. assert (rest = body (snake g)) as -> by (apply Hkeep; lia).
      split; [| split; [exact Hz | left; by apply collided_full]].
      rewrite Hb1. intros c Hc. right. by apply Hfull.
Qed.

Lemma frame_inv (evs : list Event) (g : Game) (rng : Rng) :
  game_inv g →
  ∃ g' rng', frame evs g rng = Some (g', rng') ∧ game_inv g'.
Proof.
  intros Hinv.
  destruct (handle_events_inv evs g rng Hinv) as (g1 & rng1 & H1 & Hinv1).
  destruct (update_inv g1 rng1 Hinv1) as (g2 & rng2 & H2 & Hinv2).
  exists g2, rng2. split; [| done]. unfold frame, bind. rewrite H1. exact H2.
Qed.

Lemma reachable_inv (g : Game) : reachable g → game_inv g.
Proof.
  induction 1 as [rng g rng' Hnew | g evs rng g' rng' _ IH _ Hf].
  - destruct (new_game_inv rng) as (g0 & rng0 & H0 & Hinv & _). congruence.
  - destruct (frame_inv evs g rng IH) as (g1 & rng1 & H1 & Hinv1). congruence.
Qed.

(** ** The run that fills the board is a run of the game *)

Lemma handle_event_arrow (key : Key) (d : Cell) (g : Game) (rng : Rng) :
  arrow key = Some d → game_over g = false →
  handle_event (KEYDOWN key) g rng
    = Some (with_snake (set_direction d (snake g)) g, rng).
Proof.
  intros Ha Hgo. destruct key; simplify_eq/=; rewrite Hgo; reflexivity.
Qed.

Lemma eat_step (h : Cell) (t : list Cell) (d : Cell) (key : Key) (d' : Cell)
    (n : Z) (f' : Cell) (rng : Rng) :
  arrow key = Some d' → _is_opposite d' d = false →
  in_grid (advance (h :: t) key) → advance (h :: t) key ∉ h :: t →
  (in_grid f' ∧ f' ∉ advance (h :: t) key :: h :: t)
  ∨ (board_full (advance (h :: t) key :: h :: t) ∧ f' = (0, 0)) →
  ∃ rng0, frame [KEYDOWN key] (eating (h :: t) d n (advance (h :: t) key)) rng0
          = Some (eating (advance (h :: t) key :: h :: t) d' (n + 1) f', rng).
Proof.
  intros Ha Hopp Hg Hfresh Hfood.
  set (c := advance (h :: t) key) in *.
  set (s1 := mkSnake (c :: h :: t) d' 0 d').
  assert (move (set_direction d' (mkSnake (h :: t) d 1 d)) = Some s1) as Hm.
  { unfold set_direction. simpl. rewrite Hopp. simpl.
    erewrite move_grows by (reflexivity || (simpl; lia)). simpl.
    subst s1 c. unfold advance. rewrite Ha. reflexivity. }
  assert (collided c (h :: t) = false) as Hcol.
  { unfold collided. rewrite bool_decide_eq_false_2 by (intros H; by apply H).
    by rewrite bool_decide_eq_false_2. }
  assert (∃ rng0, _random_free_cell (occupies (grow 1 s1)) rng0 = Some (f', rng))
    as [rng0 Hr].
  { destruct Hfood as [[Hfg Hfn] | [Hfull ->]].
    - apply random_free_cell_any; [exact Hfg |].
      intros Hin. apply Hfn. by apply elem_of_occupies in Hin.
    - exists rng. apply random_free_cell_full. apply free_cells_nil.
      intros x Hx. apply elem_of_occupies. by apply Hfull. }
  exists rng0. unfold frame, bind. cbn [handle_events]. unfold bind.
  rewrite (handle_event_arrow key d') by done. unfold ret.
  erewrite update_playing; [| reflexivity | exact Hm | reflexivity].
  simpl. rewrite bool_decide_eq_true_2 by reflexivity.
  rewrite Hr, Hcol. reflexivity.
Qed.

Lemma eat_along (keys : list Key) : ∀ (h : Cell) (t : list Cell) (d : Cell) (n : Z),
  path_ok (h :: t) d keys = true →
  board_full (walk (h :: t) keys) →
  reachable (eating (h :: t) d n (target (h :: t) keys)) →
  reachable (eating (walk (h :: t) keys) (last_dir d keys)
                    (n + Z.of_nat (length keys)) (0, 0)).
Proof.
  induction keys as [| key keys IH]; intros h t d n Hok Hfull Hreach.
  - simpl in *. by rewrite Z.add_0_r.
  - cbn [path_ok] in Hok. destruct (arrow key) as [d' |] eqn:Ha; [| discriminate].
    apply andb_prop in Hok as [Hok Hrest].
    apply andb_prop in Hok as [Hok Hfresh].
    apply andb_prop in Hok as [Hopp Hgrid].
    apply negb_true_iff in Hopp.
    apply bool_decide_eq_true in Hgrid, Hfresh.
    cbn [walk] in *. cbn [last_dir]. rewrite Ha. cbn [default].
    replace (n + Z.of_nat (length (key :: keys)))
      with ((n + 1) + Z.of_nat (length keys)) by (simpl length; lia).
    apply IH; [exact Hrest | exact Hfull |].
    destruct (eat_step h t d key d' n (target (advance (h :: t) key :: h :: t) keys)
                (λ _, 0%nat) Ha Hopp Hgrid Hfresh) as [rng0 Hstep].
    + destruct keys as [| key2 keys2]; [right; by split | left].
      cbn [path_ok] in Hrest. cbn [target].
      destruct (arrow key2); [| discriminate].
      apply andb_prop in Hrest as [Hrest _].
      apply andb_prop in Hrest as [Hrest Hf2].
      apply andb_prop in Hrest as [_ Hg2].
      apply bool_decide_eq_true in Hg2, Hf2. by split.
    + eapply reach_frame; [exact Hreach | reflexivity | exact Hstep].
Qed.

Lemma frames_reachable (batches : list (list Event)) :
  ∀ (g : Game) (rng : Rng) (g' : Game) (rng' : Rng),
  reachable g → frames batches g rng = Some (g', rng') → reachable g'.
Proof.
  induction batches as [| evs rest IH]; intros g rng g' rng' Hreach Hrun.
  - injection Hrun as <- _. exact Hreach.
  - simpl in Hrun. destruct (running g) eqn:Hrunning.
    + unfold bind in Hrun. destruct (frame evs g rng) as [[g1 rng1] |] eqn:Hf;
        [| discriminate].
      eapply IH; [| exact Hrun]. eapply reach_frame; eauto.
    + injection Hrun as <- _. exact Hreach.
Qed.

Lemma game_loop_reachable (batches : list (list Event)) (rng : Rng)
    (g : Game) (rng' : Rng) :
  game_loop batches rng = Some (g, rng') → reachable g.
Proof.
  unfold game_loop, bind. destruct (new_game rng) as [[g0 rng0] |] eqn:Hnew;
    [| discriminate].
  apply frames_reachable. by eapply reach_new.
Qed.

Lemma opening_run :
  fst <$> game_loop opening (λ n, match n with O => 1 | S _ => 0 end)%nat
    = Some (eating [(0, 1); (0, 0)] DOWN 1 (0, 2)).
Proof. vm_compute. reflexivity. Qed.

Lemma tour_ok : path_ok [(0, 1); (0, 0)] DOWN tour = true.
Proof. vm_compute. reflexivity. Qed.

Lemma tour_full : board_full (walk [(0, 1); (0, 0)] tour).
Proof.
  assert (forallb (λ c, bool_decide (c ∈ walk [(0, 1); (0, 0)] tour)) all_cells
            = true) as Hall by (vm_compute; reflexivity).
  intros c Hc. apply elem_of_all_cells in Hc.
  rewrite forallb_forall in Hall. apply list_elem_of_In in Hc.
  apply Hall in Hc. by apply bool_decide_eq_true in Hc.
Qed.

Lemma tour_facts :
  last_dir DOWN tour = LEFT ∧ 1 + Z.of_nat (length tour) = 599.
Proof. split; vm_compute; reflexivity. Qed.

Lemma full_board_reachable : reachable full_board.
Proof.
  unfold full_board.
  destruct tour_facts as [<- <-].
  apply eat_along; [exact tour_ok | exact tour_full |].
  pose proof opening_run as Hrun.
  destruct (game_loop opening _) as [[g rng'] |] eqn:Hloop; [| discriminate].
  injection Hrun as ->. by eapply game_loop_reachable.
Qed.

Lemma move_length_cases (s : Snake) :
  body s ≠ [] →
  ∃ s', move s = Some s' ∧ body s' ≠ [] ∧
    (0 < _pending_growth s →
       length (body s') = S (length (body s)) ∧
       _pending_growth s' = _pending_growth s - 1) ∧
    (_pending_growth s ≤ 0 →
       length (body s') = length (body s) ∧
       _pending_growth s' = _pending_growth s).
Proof.
  destruct (body s) as [| h t] eqn:Hb; [done | intros _].
  destruct (decide (0 < _pending_growth s)) as [Hp | Hp].
  - rewrite (move_grows s h t) by done. eexists. split; [reflexivity |].
    simpl. rewrite Hb. split; [done |]. split; [done | lia].
  - rewrite (move_slides s h t) by (done || lia). eexists. split; [reflexivity |].
    simpl. rewrite Hb, removelast_cons_length. split; [done |]. split; [lia | done].
Qed.

Lemma update_length (g : Game) (rng : Rng) :
  body (snake g) ≠ [] →
  ∃ g' rng', update g rng = Some (g', rng') ∧
    (length (body (snake g)) ≤ length (body (snake g')))%nat.
Proof.
  intros Hne. destruct (game_over g) eqn:Hgo.
  { exists g, rng. split; [by apply update_game_over | done]. }
  destruct (move_is_Some (snake g) Hne) as [s1 Hm].
  destruct (move_body _ _ Hm) as (nh & rest & Hb1 & _ & Hlen & _).
  rewrite (update_playing g s1 nh rest rng Hgo Hm Hb1).
  case_bool_decide.
  - destruct (random_free_cell_total (occupies (grow 1 s1)) rng)
      as (p & rng' & Hr & _).
    rewrite Hr. eexists _, _. split; [reflexivity |]. simpl. rewrite Hb1. simpl. lia.
  - eexists _, _. split; [reflexivity |]. simpl. rewrite Hb1. simpl. lia.
Qed.

Lemma walk_cons (keys : list Key) : ∀ (h : Cell) (t : list Cell),
  ∃ h' t', walk (h :: t) keys = h' :: t'.
Proof.
  induction keys as [| key keys IH]; intros h t; [by eexists _, _ |].
  cbn [walk]. apply IH.
Qed.

Lemma tour_head : walk [(0, 1); (0, 0)] tour !! 0%nat = Some (1, 0).
Proof. vm_compute. reflexivity. Qed.

(** With the board full and the fallback food under the tail, a step
    onto the corner ends the game and eats on the same tick. *)
Lemma eating_full_tick (h : Cell) (t : list Cell) (d : Cell) (n : Z) (rng : Rng) :
  board_full (h :: t) → (h.1 + d.1, h.2 + d.2) = (0, 0) →
  let s1 := mkSnake ((0, 0) :: h :: t) d 0 d in
  move (snake (eating (h :: t) d n (0, 0))) = Some s1 ∧
  hits_wall s1 = Some false ∧ hits_self s1 = Some true ∧
  update (eating (h :: t) d n (0, 0)) rng
    = Some (mkGame (grow 1 s1) (mkFood (0, 0)) (n + 1) true true, rng).
Proof.
  intros Hfull Hstep s1.
  assert (move (mkSnake (h :: t) d 1 d) = Some s1) as Hm.
  { erewrite move_grows by (reflexivity || (cbn; lia)).
    cbn [_next_direction _pending_growth body]. rewrite Hstep. reflexivity. }
  assert ((0, 0) ∈ h :: t) as Hin by (apply Hfull, origin_in_grid).
  split; [exact Hm |]. split; [| split].
  - erewrite hits_wall_head by reflexivity.
    by rewrite bool_decide_eq_false_2 by (intros H; apply H, origin_in_grid).
  - erewrite hits_self_head by reflexivity. by rewrite bool_decide_eq_true_2.
  - erewrite update_playing; [| reflexivity | exact Hm | reflexivity].
    cbn [eating food pos score running].
    rewrite bool_decide_eq_true_2 by reflexivity.
    rewrite random_free_cell_full.
    + by rewrite collided_full.
    + apply free_cells_nil. intros c Hc. apply elem_of_occupies.
      cbn [grow body s1]. right. by apply Hfull.
Qed.

Lemma full_board_tick (rng : Rng) :
  ∃ s1, move (snake full_board) = Some s1 ∧ hits_wall s1 = Some false ∧
    hits_self s1 = Some true ∧
    update full_board rng
      = Some (mkGame (grow 1 s1) (mkFood (0, 0)) 600 true true, rng).
Proof.
  pose proof tour_head as Hh. pose proof tour_full as Hfull.
  unfold full_board.
  destruct (walk_cons tour (0, 1) [(0, 0)]) as (h' & t' & Hw).
  rewrite Hw in Hh, Hfull |- *. injection Hh as ->.
  eexists. by apply (eating_full_tick (1, 0) t' LEFT 599 rng).
Qed.

(** * Properties of the specification *)

(** C1: on a snake that has a head, [move] commits the buffered
    direction into the committed one, computes the new head as the head
    plus that direction and inserts it at index 0 of the body; then, if
    growth is pending, it uses one unit and keeps the tail, so the body
    is longer by exactly one, and otherwise it removes the last element,
    so the length is unchanged. *)
Theorem move_spec (s : Snake) (h : Cell) (t : list Cell) :
  body s = h :: t →
  ∃ s', move s = Some s' ∧
    direction s' = _next_direction s ∧
    _next_direction s' = _next_direction s ∧
    let new_head := (h.1 + (direction s').1, h.2 + (direction s').2) in
    body s' !! 0%nat = Some new_head ∧
    (0 < _pending_growth s →
       _pending_growth s' = _pending_growth s - 1 ∧
       body s' = new_head :: body s ∧
       length (body s') = S (length (body s))) ∧
    (_pending_growth s ≤ 0 →
       _pending_growth s' = _pending_growth s ∧
       body s' = removelast (new_head :: body s) ∧
       length (body s') = length (body s)).
Proof.
  intros Hb. destruct (decide (0 < _pending_growth s)) as [Hp | Hp].
  - rewrite (move_grows s h t Hb Hp). eexists. split; [reflexivity |].
    cbn [direction _next_direction body _pending_growth].
    repeat split; try done; try lia.
  - rewrite (move_slides s h t Hb) by lia. eexists. split; [reflexivity |].
    cbn [direction _next_direction body _pending_growth].
    split; [done |]. split; [done |]. split; [done |]. split; [lia |].
    intros _. split; [done |]. rewrite Hb. split.
    + reflexivity.
    + cbn [length]. by rewrite removelast_cons_length.
Qed.

Lemma move_spec_witness :
  ∃ s', move (Snake_init (7, 10)) = Some s' ∧ direction s' = RIGHT.
Proof.
  destruct (move_spec (Snake_init (7, 10)) (7, 10) [(6, 10)] eq_refl)
    as (s' & Hm & Hd & _).
  exists s'. split; [exact Hm | exact Hd].
Defined.

(** C2, as amended: on a tick of the playing state in which the snake,
    after [move], hits a wall or itself, the game is over and, unless
    the new head is on the food cell, nothing else happens on that tick:
    no growth, no score, no respawn, no draw.  The new head is off the
    food whenever the food is a grid cell that lay on no body cell
    before the tick; when the new head is on the food, the food is
    eaten on the very tick that ends the game. *)
Theorem collision_ends_tick (g : Game) (s1 : Snake) (wall self : bool) (rng : Rng) :
  game_over g = false →
  move (snake g) = Some s1 →
  hits_wall s1 = Some wall → hits_self s1 = Some self →
  wall || self = true →
  (head s1 ≠ Some (pos (food g)) →
     update g rng = Some (mkGame s1 (food g) (score g) (running g) true, rng)) ∧
  (in_grid (pos (food g)) → pos (food g) ∉ body (snake g) →
     head s1 ≠ Some (pos (food g))) ∧
  (head s1 = Some (pos (food g)) →
     ∃ f' rng', update g rng
       = Some (mkGame (grow 1 s1) f' (score g + 1) (running g) true, rng')).
Proof.
  intros Hgo Hm Hw Hs Hhit.
  destruct (move_body _ _ Hm) as (nh & rest & Hb1 & Hh1 & _ & Hsub & _).
  rewrite (hits_wall_head s1 nh rest Hb1) in Hw.
  rewrite (hits_self_head s1 nh rest Hb1) in Hs.
  injection Hw as <-. injection Hs as <-.
  rewrite (update_playing g s1 nh rest rng Hgo Hm Hb1), Hh1.
  fold (collided nh rest) in Hhit. rewrite Hhit.
  split; [| split].
  - intros Hoff. rewrite bool_decide_eq_false_2; [reflexivity |]. congruence.
  - intros Hfg Hfn [= ->]. apply orb_prop in Hhit as [Hout | Hin].
    + apply bool_decide_eq_true in Hout. contradiction.
    + apply bool_decide_eq_true in Hin. by apply Hfn, Hsub.
  - intros [= ->]. rewrite bool_decide_eq_true_2 by reflexivity.
    destruct (random_free_cell_total (occupies (grow 1 s1)) rng)
      as (p & rng' & Hr & _).
    rewrite Hr. by eexists _, _.
Qed.

Lemma collision_ends_tick_witness :
  update (mkGame (mkSnake [(29, 10); (28, 10)] RIGHT 0 RIGHT) (mkFood (3, 3)) 0 true false)
         (λ _, 0%nat)
  = Some (mkGame (mkSnake [(30, 10); (29, 10)] RIGHT 0 RIGHT) (mkFood (3, 3)) 0 true true,
          λ _, 0%nat).
Proof.
  destruct (collision_ends_tick
              (mkGame (mkSnake [(29, 10); (28, 10)] RIGHT 0 RIGHT) (mkFood (3, 3)) 0 true false)
              (mkSnake [(30, 10); (29, 10)] RIGHT 0 RIGHT) true false (λ _, 0%nat)
              eq_refl eq_refl eq_refl eq_refl eq_refl) as (Hstop & Hoff & _).
  apply Hstop, Hoff.
  - vm_compute. intuition discriminate.
  - simpl. intros Hin. vm_compute in Hin.
    repeat (apply elem_of_cons in Hin as [Hin | Hin]; [discriminate |]).
    by apply not_elem_of_nil in Hin.
Defined.

(** C2, as stated, fails: the full board is reachable and playing; its
    next move runs the head onto the tail, and on that same tick the
    food under the tail is eaten: growth is added and the score goes up. *)
Lemma collision_tick_still_eats :
  reachable full_board ∧ game_over full_board = false ∧
  head (snake full_board) = Some (1, 0) ∧
  _next_direction (snake full_board) = LEFT ∧
  last (body (snake full_board)) = Some (0, 0) ∧
  pos (food full_board) = (0, 0) ∧
  ∃ s1 g', move (snake full_board) = Some s1 ∧ hits_self s1 = Some true ∧
    update full_board (λ _, 0%nat) = Some (g', λ _, 0%nat) ∧
    game_over g' = true ∧
    score g' = score full_board + 1 ∧
    _pending_growth (snake g') = _pending_growth s1 + 1.
Proof.
  split; [exact full_board_reachable |]. split; [reflexivity |].
  split; [vm_compute; reflexivity |]. split; [reflexivity |].
  split; [vm_compute; reflexivity |]. split; [reflexivity |].
  destruct (full_board_tick (λ _, 0%nat)) as (s1 & Hm & _ & Hs & Hu).
  exists s1. eexists. split; [exact Hm |]. split; [exact Hs |].
  split; [exact Hu |]. split; [reflexivity |]. split; reflexivity.
Qed.

(** C3: when the occupied set does not cover the whole grid, [respawn]
    returns and the new position is a grid cell outside the occupied
    set; when it covers the grid, [respawn] returns the cell (0, 0)
    and draws nothing. *)
Theorem respawn_spec (occupied : gset Cell) (f : Food) (rng : Rng) :
  (¬ (∀ c, in_grid c → c ∈ occupied) →
     ∃ f' rng', respawn occupied f rng = Some (f', rng') ∧
       in_grid (pos f') ∧ pos f' ∈ all_cells ∧ pos f' ∉ occupied) ∧
  ((∀ c, in_grid c → c ∈ occupied) →
     respawn occupied f rng = Some (mkFood (0, 0), rng)).
Proof.
  unfold respawn, bind, ret. split.
  - intros Hnot.
    destruct (random_free_cell_free occupied rng) as (p & rng' & Hr & Hg & Hn).
    { intros Hnil. apply Hnot. by apply free_cells_nil. }
    rewrite Hr. exists (mkFood p), rng'. split; [reflexivity |]. simpl.
    split; [exact Hg |]. split; [by apply elem_of_all_cells | exact Hn].
  - intros Hall. rewrite random_free_cell_full; [reflexivity |].
    by apply free_cells_nil.
Qed.

Lemma respawn_spec_witness :
  ∃ f' rng', respawn {[ (7, 10); (6, 10) ]} (mkFood (3, 3)) (λ _, 0%nat) = Some (f', rng') ∧
    in_grid (pos f') ∧ pos f' ∈ all_cells ∧ pos f' ∉ ({[ (7, 10); (6, 10) ]} : gset Cell).
Proof.
  apply (respawn_spec {[ (7, 10); (6, 10) ]} (mkFood (3, 3)) (λ _, 0%nat)).
  intros Hall. specialize (Hall (0, 0) origin_in_grid).
  apply elem_of_union in Hall as [Hin | Hin];
    apply elem_of_singleton in Hin; discriminate.
Defined.

(** C4: [set_direction d] buffers [d] unless [d] is the exact opposite
    of the committed direction (the buffer is not looked at); a rejected
    call changes nothing and raises nothing; after several calls the
    buffer holds the last accepted one; and a call with the opposite of
    the committed direction changes nothing about the next [move], whose
    committed direction stays the current one when nothing else was
    buffered. *)
Theorem set_direction_spec (s : Snake) (d : Cell) (ds : list Cell) :
  (_is_opposite d (direction s) = true ↔ d = opposite (direction s)) ∧
  set_direction d s =
    (if decide (d = opposite (direction s)) then s
     else mkSnake (body s) (direction s) (_pending_growth s) d) ∧
  foldl (λ s' d', set_direction d' s') s ds =
    mkSnake (body s) (direction s) (_pending_growth s)
      (default (_next_direction s)
         (last (filter (λ d', d' ≠ opposite (direction s)) ds))) ∧
  move (set_direction (opposite (direction s)) s) = move s ∧
  direction <$> move (set_direction (opposite (direction s))
                        (mkSnake (body s) (direction s) (_pending_growth s) (direction s)))
    = (λ _, direction s) <$> head s.
Proof.
  split; [apply is_opposite_true |]. split; [apply set_direction_cases |].
  split; [apply set_directions_last |].
  split; [by rewrite set_direction_rejected |].
  change (set_direction ?x ?y) with (set_direction (opposite (direction y)) y).
  rewrite set_direction_rejected.
  unfold move, head. cbn [body _next_direction _pending_growth].
  destruct (body s) as [| h t]; [reflexivity |]. simpl.
  case_bool_decide; reflexivity.
Qed.

(** C5: [move] never shortens the body; with [g] units of growth
    pending on a snake that has a head, each of the next [g] calls of
    [move] lengthens the body by one and the call after them leaves the
    length unchanged; [grow n] adds max(1, n) to the pending growth and
    leaves the body as it is. *)
Theorem growth_spec (s : Snake) (g : nat) :
  body s ≠ [] → _pending_growth s = Z.of_nat g →
  (∀ s0 s1, move s0 = Some s1 → (length (body s0) ≤ length (body s1))%nat) ∧
  (∀ k, (k ≤ g)%nat →
     ∃ sk sk', moves k s = Some sk ∧ move sk = Some sk' ∧
       ((k < g)%nat → length (body sk') = S (length (body sk))) ∧
       (k = g → length (body sk') = length (body sk))) ∧
  (∀ n, _pending_growth (grow n s) = _pending_growth s + Z.max 1 n ∧
        body (grow n s) = body s).
Proof.
  intros Hne Hg. split; [exact move_length_le |]. split; [| done].
  intros k Hk.
  destruct (moves_growing k s Hne) as (sk & Hmk & Hnek & _ & Hpk); [lia |].
  destruct (move_length_cases sk Hnek) as (sk' & Hm & _ & Hgrow & Hslide).
  exists sk, sk'. split; [exact Hmk |]. split; [exact Hm |]. split.
  - intros Hlt. apply Hgrow. lia.
  - intros ->. apply Hslide. lia.
Qed.

Lemma growth_spec_witness :
  ∃ s2 s3, moves 2 (grow 2 (Snake_init (7, 10))) = Some s2 ∧ move s2 = Some s3 ∧
    length (body s3) = length (body s2).
Proof.
  destruct (growth_spec (grow 2 (Snake_init (7, 10))) 2) as (_ & Hk & _).
  - simpl. discriminate.
  - reflexivity.
  - destruct (Hk 2%nat (le_n 2)) as (s2 & s3 & H2 & H3 & _ & Hsame).
    exists s2, s3. split; [exact H2 |]. split; [exact H3 |]. by apply Hsame.
Defined.

(** C6: the body has at least two segments throughout play: the
    constructor builds two, [set_direction] and [grow] leave the body
    alone, [move] and the update step return on a body of two or more
    and keep it at two or more, and so every reachable game has a body
    of at least two segments. *)
Theorem body_length_at_least_two :
  (∀ start, length (body (Snake_init start)) = 2%nat) ∧
  (∀ d s, body (set_direction d s) = body s) ∧
  (∀ n s, body (grow n s) = body s) ∧
  (∀ s, (2 ≤ length (body s))%nat →
     ∃ s', move s = Some s' ∧ (2 ≤ length (body s'))%nat) ∧
  (∀ g rng, (2 ≤ length (body (snake g)))%nat →
     ∃ g' rng', update g rng = Some (g', rng') ∧
       (2 ≤ length (body (snake g')))%nat) ∧
  (∀ g, reachable g → (2 ≤ length (body (snake g)))%nat).
Proof.
  split; [done |]. split; [exact set_direction_body |]. split; [done |].
  split; [| split].
  - intros s Hl. destruct (move_is_Some s) as [s' Hm].
    { destruct (body s); [simpl in Hl; lia | done]. }
    exists s'. split; [exact Hm |]. apply move_length_le in Hm. lia.
  - intros g rng Hl. destruct (update_length g rng) as (g' & rng' & Hu & Hle).
    { destruct (body (snake g)); [simpl in Hl; lia | done]. }
    exists g', rng'. split; [exact Hu | lia].
  - intros g Hr. by destruct (reachable_inv g Hr).
Qed.

Lemma body_length_witness :
  ∃ s', move (Snake_init (7, 10)) = Some s' ∧ (2 ≤ length (body s'))%nat.
Proof.
  destruct body_length_at_least_two as (_ & _ & _ & Hmove & _).
  apply (Hmove (Snake_init (7, 10))). simpl. lia.
Defined.

(** C7, as amended: in every reachable game the food is on no body
    cell, unless the body covers the whole grid, and then the food is
    the fallback cell (0, 0); a new game starts with the food off the
    snake, and a respawn returns a cell outside the occupied set
    whenever the set leaves a grid cell free. *)
Theorem food_off_body_unless_full :
  (∀ g, reachable g →
     pos (food g) ∉ body (snake g) ∨
     (board_full (body (snake g)) ∧ pos (food g) = (0, 0))) ∧
  (∀ rng g rng', new_game rng = Some (g, rng') →
     pos (food g) ∉ body (snake g)) ∧
  (∀ occupied f rng f' rng',
     respawn occupied f rng = Some (f', rng') →
     free_cells occupied ≠ [] → pos f' ∉ occupied).
Proof.
  split; [| split].
  - intros g Hr. destruct (reachable_inv g Hr) as [_ _ _ [Hoff | (Hfull & Hz & _)]];
      [by left | by right].
  - intros rng g rng' Hnew.
    destruct (start_new_game_spec rng) as (f & rng1 & Hs & _ & Hn).
    unfold new_game, bind, ret in Hnew. rewrite Hs in Hnew.
    injection Hnew as <- _. exact Hn.
  - intros occupied f rng f' rng' Hr Hfree.
    destruct (random_free_cell_free occupied rng Hfree) as (p & rng1 & Hp & _ & Hn).
    unfold respawn, bind, ret in Hr. rewrite Hp in Hr.
    injection Hr as <- _. exact Hn.
Qed.

Lemma food_off_body_witness :
  pos (food full_board) ∉ body (snake full_board) ∨
  (board_full (body (snake full_board)) ∧ pos (food full_board) = (0, 0)).
Proof.
  destruct food_off_body_unless_full as (Hreach & _).
  apply Hreach. exact full_board_reachable.
Defined.

(** C7, as stated, fails: the full board is reachable, and there the
    food lies on a body cell. *)
Lemma full_board_food_on_body :
  reachable full_board ∧
  length (body (snake full_board)) = 600%nat ∧
  pos (food full_board) = (0, 0) ∧
  last (body (snake full_board)) = Some (0, 0) ∧
  pos (food full_board) ∈ body (snake full_board).
Proof.
  split; [exact full_board_reachable |].
  split; [vm_compute; reflexivity |]. split; [reflexivity |].
  split; [vm_compute; reflexivity |].
  apply tour_full, origin_in_grid.
Qed.

(** C8: two or more calls of [set_direction d] in a row leave the snake
    exactly as one call does. *)
Theorem set_direction_idempotent (s : Snake) (d : Cell) (n : nat) :
  Nat.iter (2 + n) (set_direction d) s = set_direction d s.
Proof. apply (iter_set_direction (S n)). Qed.

(** C9: a new game has its snake at (COLUMNS/4, ROWS/2), two segments
    long and facing right; three calls of [move] on it, with no
    [set_direction] and no [grow], return a snake whose body is still two
    long and whose head is (COLUMNS/4 + 3, ROWS/2). *)
Theorem three_moves_from_start (rng : Rng) :
  ∃ s f rng', start_new_game rng = Some ((s, f, 0), rng') ∧
    head s = Some (COLUMNS `div` 4, ROWS `div` 2) ∧
    length (body s) = 2%nat ∧ direction s = RIGHT ∧
    ∃ s3, moves 3 s = Some s3 ∧
      length (body s3) = 2%nat ∧
      head s3 = Some (COLUMNS `div` 4 + 3, ROWS `div` 2).
Proof.
  destruct (start_new_game_spec rng) as (f & rng' & Hs & _).
  eexists _, f, rng'. split; [exact Hs |].
  split; [reflexivity |]. split; [reflexivity |]. split; [reflexivity |].
  eexists. split; [vm_compute; reflexivity |]. split; reflexivity.
Qed.

(** C10: [grow] accepts every integer: it adds exactly max(1, n) to the
    pending growth, which is at least one also for zero and negative
    [n], and changes nothing else. *)
Theorem grow_total (n : Z) (s : Snake) :
  _pending_growth (grow n s) = _pending_growth s + Z.max 1 n ∧
  _pending_growth s + 1 ≤ _pending_growth (grow n s) ∧
  (n ≤ 1 → _pending_growth (grow n s) = _pending_growth s + 1) ∧
  body (grow n s) = body s ∧ direction (grow n s) = direction s ∧
  _next_direction (grow n s) = _next_direction s.
Proof. simpl. repeat split; lia. Qed.

Lemma grow_total_witness :
  _pending_growth (grow (-5) (Snake_init (7, 10))) = 1 ∧
  _pending_growth (grow 0 (Snake_init (7, 10))) = 1.
Proof.
  split.
  - destruct (grow_total (-5) (Snake_init (7, 10))) as (_ & _ & H & _).
    apply H. lia.
  - destruct (grow_total 0 (Snake_init (7, 10))) as (_ & _ & H & _).
    apply H. lia.
Defined.

(** * Further properties of the code *)

(** ** The shape of the snake is kept by every frame *)

Lemma unit_dir_not_opposite (d : Cell) : unit_dir d → d ≠ opposite d.
Proof. intros [-> | [-> | [-> | ->]]] H; vm_compute in H; discriminate. Qed.

Lemma arrow_unit_dir (key : Key) (d : Cell) : arrow key = Some d → unit_dir d.
Proof. unfold unit_dir. destruct key; intros [= <-]; auto. Qed.

Lemma step_back (h d : Cell) : (h.1 + d.1 - h.1, h.2 + d.2 - h.2) = d.
Proof. destruct h, d. simpl. f_equal; lia. Qed.

Lemma chain_removelast (l : list Cell) : chain l → chain (removelast l).
Proof.
  induction l as [| c rest IH]; [done |].
  destruct rest as [| c' r]; [done |].
  rewrite removelast_cons_cons. intros [Hstep Hrest].
  split; [| by apply IH].
  destruct r as [| c'' r]; [done | exact Hstep].
Qed.

Lemma NoDup_removelast (l : list Cell) : NoDup l → NoDup (removelast l).
Proof.
  destruct l as [| c l]; [done |]. intros Hnd.
  rewrite (app_removelast_last (0, 0) (l := c :: l)) in Hnd by done.
  by apply NoDup_app in Hnd as [Hnd _].
Qed.

Lemma play_inv_start (f : Food) (r : bool) :
  play_inv (mkGame (Snake_init (COLUMNS `div` 4, ROWS `div` 2)) f 0 r false).
Proof.
  assert (in_grid (COLUMNS `div` 4, ROWS `div` 2)) as Hh
    by (vm_compute; intuition discriminate).
  assert (in_grid (COLUMNS `div` 4 - 1, ROWS `div` 2)) as Hn
    by (vm_compute; intuition discriminate).
  assert (NoDup [(COLUMNS `div` 4 - 1, ROWS `div` 2)]) as Hnd1
    by (repeat constructor; apply not_elem_of_nil).
  split; simpl.
  - unfold unit_dir. auto.
  - unfold unit_dir. auto.
  - intros H. vm_compute in H. discriminate.
  - eexists _, _, _. split; [reflexivity |]. vm_compute. reflexivity.
  - unfold unit_dir. auto.
  - lia.
  - lia.
  - by constructor.
  - exact Hnd1.
  - intros _. split; [by repeat constructor |].
    constructor; [| exact Hnd1].
    intros Hin. apply list_elem_of_singleton in Hin. vm_compute in Hin. discriminate.
Qed.

Lemma set_direction_play_inv (d : Cell) (g : Game) :
  unit_dir d → play_inv g → play_inv (with_snake (set_direction d (snake g)) g).
Proof.
  intros Hd [H1 H2 H3 H4 H5 H6 H7 H8 H9 H10].
  split; simpl;
    rewrite ?set_direction_body, ?set_direction_direction, ?set_direction_pending;
    try done.
  - rewrite set_direction_cases. by destruct (decide _).
  - rewrite set_direction_cases. by destruct (decide _).
Qed.

Lemma handle_event_play_inv (e : Event) (g : Game) (rng : Rng) (g' : Game) (rng' : Rng) :
  play_inv g → handle_event e g rng = Some (g', rng') → play_inv g'.
Proof.
  intros Hinv. destruct e as [| key |]; simpl.
  - intros [= <- _]. destruct Hinv. by split.
  - assert (play_inv (with_running false g)) as Hinv' by (destruct Hinv; by split).
    destruct (game_over g) eqn:Hgo.
    + destruct key; simpl; rewrite ?Hgo; simpl; try (by intros [= <- _]);
        unfold bind, ret;
        destruct (start_new_game_spec rng) as (f & rng1 & -> & _);
        intros [= <- _]; apply play_inv_start.
    + destruct key; simpl; rewrite ?Hgo; simpl; intros [= <- _]; try done;
        apply set_direction_play_inv; unfold unit_dir; auto.
  - by intros [= <- _].
Qed.

Lemma handle_events_play_inv (evs : list Event) :
  ∀ (g : Game) (rng : Rng) (g' : Game) (rng' : Rng),
  play_inv g → handle_events evs g rng = Some (g', rng') → play_inv g'.
Proof.
  induction evs as [| e evs IH]; intros g rng g' rng' Hinv.
  - by intros [= <- _].
  - simpl. unfold bind.
    destruct (handle_event e g rng) as [[g1 rng1] |] eqn:He; [| discriminate].
    apply IH. by eapply handle_event_play_inv.
Qed.

Lemma collided_false (nh : Cell) (rest : list Cell) :
  collided nh rest = false ↔ in_grid nh ∧ nh ∉ rest.
Proof.
  unfold collided. rewrite orb_false_iff, !bool_decide_eq_false. split.
  - intros [Hg Hn]. split; [| done]. by destruct (decide (in_grid nh)).
  - intros [Hg Hn]. split; [| done]. intros H. by apply H.
Qed.

Lemma update_play_inv (g : Game) (rng : Rng) (g' : Game) (rng' : Rng) :
  play_inv g → update g rng = Some (g', rng') → play_inv g'.
Proof.
  intros Hinv Hu. destruct (game_over g) eqn:Hgo.
  { rewrite update_game_over in Hu by done. by injection Hu as <- _. }
  destruct Hinv as [Hd Hn Ht (h & n & r & Hb & Hh) Hc Hp Hs Htg Htn Hpl].
  destruct (Hpl Hgo) as [Hgrid Hnd].
  destruct (move (snake g)) as [s1 |] eqn:Hm; last first.
  { unfold update, bind, lift in Hu. rewrite Hgo, Hm in Hu. discriminate. }
  pose proof (move_Some_inv _ _ Hm) as (h0 & t0 & Hb0 & Hd1 & Hn1 & Hcase).
  rewrite Hb in Hb0. injection Hb0 as <- <-.
  set (nh := (h.1 + (_next_direction (snake g)).1,
              h.2 + (_next_direction (snake g)).2)) in *.
  assert (∃ rest, body s1 = nh :: h :: rest ∧
            chain (h :: rest) ∧ NoDup (h :: rest) ∧ Forall in_grid (h :: rest) ∧
            0 ≤ _pending_growth s1 ≤ 0 ∧
            Z.of_nat (length (nh :: h :: rest)) + _pending_growth s1 = score g + 2)
    as (rest & Hb1 & Hc1 & Hnd1 & Hg1 & Hp1 & Hs1).
  { destruct Hcase as [(Hpos & Hpg & Hbody) | (Hpos & Hpg & Hbody)].
    - exists (n :: r). rewrite Hbody, Hb. rewrite Hb in Hc, Hnd, Hgrid, Hs.
      split; [done |]. split; [exact Hc |]. split; [exact Hnd |].
      split; [exact Hgrid |]. split; [lia |]. cbn [length] in *. lia.
    - exists (removelast (n :: r)).
      rewrite Hbody, Hb, removelast_cons_cons.
      rewrite <- removelast_cons_cons. rewrite Hb in Hc, Hnd, Hgrid, Hs.
      split; [done |]. split; [by apply chain_removelast |].
      split; [by apply NoDup_removelast |]. split.
      + apply Forall_forall. intros c Hin. apply elem_of_removelast in Hin.
        by eapply Forall_forall in Hgrid.
      + split; [lia |]. cbn [length] in *.
        rewrite removelast_cons_length. cbn [length] in *. lia. }
  rewrite (update_playing g s1 nh (h :: rest) rng Hgo Hm Hb1) in Hu.
  assert (∀ f' sc' pend',
    0 ≤ pend' ≤ 1 →
    Z.of_nat (length (nh :: h :: rest)) + pend' = sc' + 2 →
    play_inv (mkGame (mkSnake (body s1) (direction s1) pend' (_next_direction s1))
                     f' sc' (running g) (collided nh (h :: rest)))) as Hgen.
  { intros f' sc' pend' Hpend Hsc. split; cbn [snake body direction _pending_growth
      _next_direction score game_over]; rewrite ?Hd1, ?Hn1, ?Hb1; try done.
    - by apply unit_dir_not_opposite.
    - by eexists _, _, _.
    - split; [| exact Hc1]. subst nh. cbn [fst snd]. by rewrite step_back.
    - intros [Hin Hfresh]%collided_false. split; [by constructor |].
      by constructor. }
  case_bool_decide as Heat.
  - destruct (_random_free_cell _ rng) as [[p rng1] |]; [| discriminate].
    injection Hu as <- _.
    apply (Hgen (mkFood p) (score g + 1) (_pending_growth s1 + Z.max 1 1)); lia.
  - injection Hu as <- _. destruct s1 as [b1 d1 p1 n1].
    apply (Hgen (food g) (score g) p1); cbn in *; lia.
Qed.

Lemma frame_play_inv (evs : list Event) (g : Game) (rng : Rng) (g' : Game) (rng' : Rng) :
  play_inv g → frame evs g rng = Some (g', rng') → play_inv g'.
Proof.
  intros Hinv. unfold frame, bind.
  destruct (handle_events evs g rng) as [[g1 rng1] |] eqn:He; [| discriminate].
  apply update_play_inv. by eapply handle_events_play_inv.
Qed.

Lemma reachable_play_inv (g : Game) : reachable g → play_inv g.
Proof.
  induction 1 as [rng g rng' Hnew | g evs rng g' rng' _ IH _ Hf].
  - unfold new_game, bind, ret in Hnew.
    destruct (start_new_game_spec rng) as (f & rng1 & Hs & _).
    rewrite Hs in Hnew. injection Hnew as <- _. apply play_inv_start.
  - by eapply frame_play_inv.
Qed.

(** ** Snake: errors, collisions, straight runs *)

(** X1: the methods of [Snake] that read the head raise exactly on an
    empty body: [head], [move], [hits_wall] and [hits_self] return a
    value on every snake with at least one segment, and the [pop] inside
    [move] never raises. *)
Theorem snake_raises_iff_empty (s : Snake) :
  (head s = None ↔ body s = []) ∧
  (move s = None ↔ body s = []) ∧
  (hits_wall s = None ↔ body s = []) ∧
  (hits_self s = None ↔ body s = []).
Proof.
  unfold hits_wall, hits_self, head.
  destruct (body s) as [| h t] eqn:Hb.
  - rewrite (move_None s Hb). simpl. by repeat split.
  - destruct (move_is_Some s) as [s' ->]; [by rewrite Hb |].
    destruct h as [x y]. simpl. by repeat split.
Qed.

(** X2: [hits_wall] looks at the head only: it is true exactly when the
    head is outside the grid, whatever the other segments are. *)
Theorem hits_wall_iff (s : Snake) (h : Cell) (t : list Cell) :
  body s = h :: t →
  (hits_wall s = Some true ↔ ¬ in_grid h) ∧
  (hits_wall s = Some false ↔ in_grid h).
Proof.
  intros Hb. rewrite (hits_wall_head s h t Hb).
  destruct (decide (in_grid h)) as [Hg | Hg].
  - rewrite bool_decide_eq_false_2 by (intros H; by apply H). naive_solver.
  - rewrite bool_decide_eq_true_2 by done. naive_solver.
Qed.

Lemma hits_wall_iff_witness :
  hits_wall (mkSnake [(30, 3); (29, 3)] RIGHT 0 RIGHT) = Some true
  ∧ hits_wall (Snake_init (0, 5)) = Some false.
Proof.
  split.
  - destruct (hits_wall_iff (mkSnake [(30, 3); (29, 3)] RIGHT 0 RIGHT)
                (30, 3) [(29, 3)] eq_refl) as [[_ Hout] _].
    apply Hout. intros [[_ H] _]. vm_compute in H. discriminate.
  - destruct (hits_wall_iff (Snake_init (0, 5)) (0, 5) [(-1, 5)] eq_refl)
      as [_ [_ Hin]].
    apply Hin. vm_compute. intuition discriminate.
Defined.

(** X3: [hits_self] is true exactly when the head cell occurs again
    among the later segments; on a body of pairwise distinct cells it is
    false. *)
Theorem hits_self_iff (s : Snake) (h : Cell) (t : list Cell) :
  body s = h :: t →
  (hits_self s = Some true ↔ h ∈ t) ∧
  (hits_self s = Some false ↔ h ∉ t) ∧
  (NoDup (body s) → hits_self s = Some false).
Proof.
  intros Hb. rewrite (hits_self_head s h t Hb), Hb.
  destruct (decide (h ∈ t)) as [Hin | Hin].
  - rewrite bool_decide_eq_true_2 by done.
    split; [naive_solver |]. split; [naive_solver |].
    intros Hnd. by apply NoDup_cons in Hnd as [Hnd _].
  - rewrite bool_decide_eq_false_2 by done. naive_solver.
Qed.

Lemma hits_self_iff_witness :
  hits_self (mkSnake [(1, 1); (1, 2); (2, 2); (2, 1); (1, 1)] UP 0 UP) = Some true.
Proof.
  destruct (hits_self_iff (mkSnake [(1, 1); (1, 2); (2, 2); (2, 1); (1, 1)] UP 0 UP)
              (1, 1) [(1, 2); (2, 2); (2, 1); (1, 1)] eq_refl) as [[_ Hin] _].
  apply Hin. do 3 right. left.
Defined.

(** X4: with no growth pending and no key pressed, [n] calls of [move]
    carry the head [n] steps along the buffered direction and keep the
    length of the body, the buffer and the pending growth. *)
Theorem moves_straight (n : nat) (s : Snake) (h : Cell) (t : list Cell) :
  body s = h :: t → _pending_growth s ≤ 0 →
  ∃ s', moves n s = Some s' ∧
    head s' = Some (h.1 + Z.of_nat n * (_next_direction s).1,
                    h.2 + Z.of_nat n * (_next_direction s).2) ∧
    length (body s') = length (body s) ∧
    _next_direction s' = _next_direction s ∧
    _pending_growth s' = _pending_growth s.
Proof.
  revert s h t. induction n as [| n IH]; intros s h t Hb Hp.
  - exists s. split; [reflexivity |]. unfold head. rewrite Hb. simpl.
    split; [f_equal; destruct h; simpl; f_equal; lia | done].
  - cbn [moves]. rewrite (move_slides s h t Hb Hp). cbn [mbind option_bind].
    set (s1 := mkSnake _ _ _ _).
    edestruct (IH s1) as (s' & Hm & Hh & Hl & Hn & Hpg);
      [reflexivity | exact Hp |].
    exists s'. split; [exact Hm |]. rewrite Hh, Hl, Hn, Hpg.
    subst s1. cbn [body _next_direction _pending_growth fst snd length].
    split; [f_equal; f_equal; lia |].
    split; [| done]. by rewrite Hb, removelast_cons_length.
Qed.

Lemma moves_straight_witness :
  ∃ s', moves 5 (Snake_init (7, 10)) = Some s' ∧ head s' = Some (12, 10).
Proof.
  destruct (moves_straight 5 (Snake_init (7, 10)) (7, 10) [(6, 10)] eq_refl)
    as (s' & Hm & Hh & _).
  - simpl. lia.
  - exists s'. split; [exact Hm | exact Hh].
Defined.

(** ** Food: the list of free cells *)

Lemma all_cells_NoDup : NoDup all_cells.
Proof.
  unfold all_cells. apply NoDup_bind; [| | apply NoDup_seqZ].
  - intros x1 x2 c _ _ H1 H2.
    apply list_elem_of_bind in H1 as (y1 & H1 & _).
    apply list_elem_of_bind in H2 as (y2 & H2 & _).
    apply list_elem_of_singleton in H1, H2. congruence.
  - intros x _. apply NoDup_bind; [| | apply NoDup_seqZ].
    + intros y1 y2 c _ _ H1 H2. apply list_elem_of_singleton in H1, H2. congruence.
    + intros y _. apply NoDup_singleton.
Qed.

Lemma all_cells_length : length all_cells = Z.to_nat (COLUMNS * ROWS).
Proof. vm_compute. reflexivity. Qed.

(** X5: [free_cells] lists every grid cell outside the occupied set, and
    lists it once, in the order of [all_cells]; so each free cell is the
    outcome of exactly one index that [random.choice] can draw. *)
Theorem free_cells_exact (occupied : gset Cell) :
  NoDup (free_cells occupied) ∧
  sublist (free_cells occupied) all_cells ∧
  (∀ c, c ∈ free_cells occupied ↔ in_grid c ∧ c ∉ occupied) ∧
  (∀ c i j, free_cells occupied !! i = Some c →
            free_cells occupied !! j = Some c → i = j).
Proof.
  assert (NoDup (free_cells occupied)) as Hnd
    by (apply NoDup_filter, all_cells_NoDup).
  split; [exact Hnd |]. split; [apply sublist_filter |].
  split; [apply elem_of_free_cells |].
  intros c i j Hi Hj. by eapply NoDup_lookup.
Qed.

(** X6: for a snake whose cells are pairwise distinct and on the grid,
    the free cells and the body cells together are as many as the grid
    has cells. *)
Theorem free_cells_count (s : Snake) :
  NoDup (body s) → Forall in_grid (body s) →
  (length (free_cells (occupies s)) + length (body s))%nat
    = Z.to_nat (COLUMNS * ROWS).
Proof.
  intros Hnd Hgrid. rewrite <- all_cells_length.
  rewrite <- (Permutation_length (filter_app_complement (λ c, c ∉ occupies s) all_cells)).
  rewrite length_app. unfold free_cells. f_equal.
  apply Permutation_length, NoDup_Permutation; [exact Hnd | |].
  - apply NoDup_filter, all_cells_NoDup.
  - intros c. rewrite list_elem_of_filter, elem_of_all_cells, elem_of_occupies.
    split.
    + intros Hin. split; [by intros H | by eapply Forall_forall in Hgrid].
    + intros [Hnn _]. by destruct (decide (c ∈ body s)).
Qed.

Lemma free_cells_count_witness :
  Nat.add (length (free_cells (occupies (Snake_init (7, 10))))) 2 = 600%nat.
Proof.
  apply (free_cells_count (Snake_init (7, 10))).
  - simpl. apply NoDup_cons. split.
    + intros Hin. apply list_elem_of_singleton in Hin. discriminate.
    + apply NoDup_singleton.
  - simpl. repeat constructor; vm_compute; intuition discriminate.
Defined.

(** ** The frame: events, then one update *)

Lemma handle_event_playing (e : Event) (g : Game) (rng : Rng) :
  game_over g = false →
  ∃ s' b, handle_event e g rng = Some (mkGame s' (food g) (score g) b false, rng) ∧
    body s' = body (snake g) ∧ direction s' = direction (snake g) ∧
    _pending_growth s' = _pending_growth (snake g) ∧
    (b = true → running g = true) ∧
    (_next_direction s' = _next_direction (snake g) ∨
     _next_direction s' ≠ opposite (direction (snake g))).
Proof.
  intros Hgo. destruct g as [s f sc r go]. simpl in Hgo. subst go.
  assert (∀ d, _next_direction (set_direction d s) = _next_direction s ∨
               _next_direction (set_direction d s) ≠ opposite (direction s)) as Hbuf.
  { intros d. rewrite set_direction_cases. destruct (decide _); [by left | by right]. }
  destruct e as [| key |]; [| destruct key |]; simpl;
    eexists _, _; (split; [reflexivity |]);
    rewrite ?set_direction_body, ?set_direction_direction, ?set_direction_pending;
    repeat split; try done; try apply Hbuf; by left.
Qed.

Lemma handle_events_playing (evs : list Event) : ∀ (g : Game) (rng : Rng),
  game_over g = false →
  ∃ s' b, handle_events evs g rng = Some (mkGame s' (food g) (score g) b false, rng) ∧
    body s' = body (snake g) ∧ direction s' = direction (snake g) ∧
    _pending_growth s' = _pending_growth (snake g) ∧
    (b = true → running g = true) ∧
    (_next_direction s' = _next_direction (snake g) ∨
     _next_direction s' ≠ opposite (direction (snake g))).
Proof.
  induction evs as [| e evs IH]; intros g rng Hgo.
  - exists (snake g), (running g). destruct g. simpl in *. subst.
    split; [reflexivity |]. repeat split; try done. by left.
  - destruct (handle_event_playing e g rng Hgo) as (s1 & b1 & He & Hb1 & Hd1 & Hp1 & Hr1 & Hn1).
    destruct (IH (mkGame s1 (food g) (score g) b1 false) rng eq_refl)
      as (s2 & b2 & Hes & Hb2 & Hd2 & Hp2 & Hr2 & Hn2).
    exists s2, b2. cbn [handle_events]. unfold bind. rewrite He.
    split; [exact Hes |]. simpl in *.
    split; [congruence |]. split; [congruence |]. split; [congruence |].
    split; [auto |].
    destruct Hn2 as [Hn2 | Hn2]; [rewrite Hn2; exact Hn1 | right; congruence].
Qed.

Lemma handle_event_over (e : Event) (g : Game) (rng : Rng) :
  game_over g = true → ¬ is_restart e →
  ∃ b, handle_event e g rng = Some (mkGame (snake g) (food g) (score g) b true, rng)
       ∧ (b = true → running g = true).
Proof.
  intros Hgo Hnr. destruct g as [s f sc r go]. simpl in Hgo. subst go.
  unfold is_restart in Hnr.
  destruct e as [| key |]; [| destruct key |]; simpl;
    try (eexists; split; [reflexivity | done]);
    exfalso; apply Hnr; auto.
Qed.

Lemma handle_event_running (e : Event) (g : Game) (rng : Rng) (g' : Game) (rng' : Rng) :
  handle_event e g rng = Some (g', rng') →
  (running g' = true → running g = true) ∧ (is_quit e → running g' = false).
Proof.
  unfold is_quit. destruct g as [s f sc r go].
  destruct e as [| key |]; [| destruct key |]; simpl; destruct go; simpl;
    unfold bind, ret;
    try (destruct (start_new_game_spec rng) as (f1 & rng1 & -> & _));
    intros [= <- _]; simpl; split; try done; intros [? | ?]; done.
Qed.

Lemma update_running (g : Game) (rng : Rng) (g' : Game) (rng' : Rng) :
  update g rng = Some (g', rng') → running g' = running g.
Proof.
  destruct (game_over g) eqn:Hgo.
  { rewrite update_game_over by done. by intros [= <- _]. }
  destruct (move (snake g)) as [s1 |] eqn:Hm; last first.
  { unfold update, bind, lift. rewrite Hgo, Hm. discriminate. }
  destruct (move_body _ _ Hm) as (nh & rest & Hb1 & _).
  rewrite (update_playing g s1 nh rest rng Hgo Hm Hb1).
  case_bool_decide.
  - destruct (_random_free_cell _ rng) as [[p rng1] |]; [| discriminate].
    by intros [= <- _].
  - by intros [= <- _].
Qed.

Lemma start_reachable :
  reachable (mkGame (Snake_init (7, 10)) (mkFood (0, 1)) 0 true false).
Proof.
  apply (reach_new (λ _, 1%nat) _ (λ _, 1%nat)). vm_compute. reflexivity.
Qed.

(** X7: [game_loop] never raises: on every sequence of event batches and
    every random stream it returns a game state, so no [move] meets an
    empty body and no [random.choice] an empty list. *)
Theorem game_loop_total (batches : list (list Event)) (rng : Rng) :
  ∃ g rng', game_loop batches rng = Some (g, rng') ∧ reachable g.
Proof.
  assert (∀ bs g0 rng0, game_inv g0 →
            ∃ g rng', frames bs g0 rng0 = Some (g, rng')) as Hframes.
  { induction bs as [| evs bs IH]; intros g0 rng0 Hinv.
    - by eexists _, _.
    - cbn [frames]. destruct (running g0); [| by eexists _, _].
      destruct (frame_inv evs g0 rng0 Hinv) as (g1 & rng1 & Hf & Hinv1).
      unfold bind. rewrite Hf. by apply IH. }
  destruct (new_game_inv rng) as (g0 & rng0 & Hnew & Hinv & _).
  destruct (Hframes batches g0 rng0 Hinv) as (g & rng' & Hrun).
  assert (game_loop batches rng = Some (g, rng')) as Hloop
    by (unfold game_loop, bind; by rewrite Hnew).
  exists g, rng'. split; [exact Hloop | by eapply game_loop_reachable].
Qed.

(** X8: whatever keys arrive in a frame, the move of that frame never
    puts the head back on the neck, the segment right behind the head:
    the snake cannot reverse into itself. *)
Theorem never_reverses (g : Game) (evs : list Event) (rng : Rng)
    (g1 : Game) (rng1 : Rng) (s1 : Snake) :
  reachable g → handle_events evs g rng = Some (g1, rng1) →
  move (snake g1) = Some s1 →
  ∃ h n r, body (snake g1) = h :: n :: r ∧
    head s1 = Some (h.1 + (direction s1).1, h.2 + (direction s1).2) ∧
    unit_dir (direction s1) ∧ head s1 ≠ Some n.
Proof.
  intros Hr He Hm.
  pose proof (handle_events_play_inv evs g rng g1 rng1 (reachable_play_inv g Hr) He)
    as [_ Hnext Hturn (h & n & r & Hb & Hh) _ _ _ _ _ _].
  apply move_Some_inv in Hm as Hm'. destruct Hm' as (h0 & t0 & Hb0 & Hd1 & _ & Hcase).
  rewrite Hb in Hb0. injection Hb0 as <- <-.
  exists h, n, r. split; [exact Hb |]. rewrite Hd1.
  assert (head s1 = Some (h.1 + (_next_direction (snake g1)).1,
                          h.2 + (_next_direction (snake g1)).2)) as Hh1.
  { unfold head. by destruct Hcase as [(_ & _ & ->) | (_ & _ & ->)]. }
  split; [exact Hh1 |]. split; [exact Hnext |].
  rewrite Hh1. intros [= Hn]. apply Hturn.
  destruct (_next_direction (snake g1)) as [a b], (direction (snake g1)) as [c d].
  destruct n as [n1 n2]. subst h. unfold opposite. simpl in *.
  injection Hn as H1 H2. f_equal; lia.
Qed.

Lemma never_reverses_witness :
  ∃ s1, move (set_direction LEFT (Snake_init (7, 10))) = Some s1 ∧
        head s1 ≠ Some (6, 10).
Proof.
  destruct (never_reverses (mkGame (Snake_init (7, 10)) (mkFood (0, 1)) 0 true false)
              [KEYDOWN K_LEFT] (λ _, 0%nat) _ _
              (mkSnake [(8, 10); (7, 10)] RIGHT 0 RIGHT)
              start_reachable eq_refl eq_refl) as (h & n & r & Hb & _ & _ & Hne).
  injection Hb as <- <- <-. eexists. split; [reflexivity | exact Hne].
Defined.

(** X9: in every reachable game the body is a connected path: each
    segment is one step up, down, left or right of the next one, and the
    committed direction is the step from the neck to the head. *)
Theorem body_is_connected (g : Game) :
  reachable g →
  chain (body (snake g)) ∧ unit_dir (direction (snake g)) ∧
  ∃ h n r, body (snake g) = h :: n :: r ∧
    h = (n.1 + (direction (snake g)).1, n.2 + (direction (snake g)).2).
Proof. intros Hr. by destruct (reachable_play_inv g Hr). Qed.

Lemma body_is_connected_witness : chain (body (snake full_board)).
Proof. apply (body_is_connected full_board full_board_reachable). Defined.

Lemma grid_pigeonhole (l : list Cell) :
  NoDup l → Forall in_grid l → (length l ≤ Z.to_nat (COLUMNS * ROWS))%nat.
Proof.
  intros Hnd Hgrid. rewrite <- all_cells_length.
  apply submseteq_length, NoDup_submseteq; [exact Hnd |].
  intros c Hin. apply elem_of_all_cells. by eapply Forall_forall in Hgrid.
Qed.

(** X10: while a reachable game is not over, the body cells are pairwise
    distinct and all on the grid, so the body is at most COLUMNS * ROWS
    long; in any reachable game, over or not, this holds of the cells
    behind the head. *)
Theorem playing_body_is_clean (g : Game) :
  reachable g →
  (game_over g = false →
     NoDup (body (snake g)) ∧ Forall in_grid (body (snake g)) ∧
     (length (body (snake g)) ≤ Z.to_nat (COLUMNS * ROWS))%nat) ∧
  NoDup (drop 1 (body (snake g))) ∧ Forall in_grid (drop 1 (body (snake g))).
Proof.
  intros Hr. destruct (reachable_play_inv g Hr) as [_ _ _ _ _ _ _ Htg Htn Hpl].
  split; [| done]. intros Hgo. destruct (Hpl Hgo) as [Hgrid Hnd].
  split; [done |]. split; [done |]. by apply grid_pigeonhole.
Qed.

Lemma playing_body_is_clean_witness : NoDup (body (snake full_board)).
Proof.
  destruct (playing_body_is_clean full_board full_board_reachable) as [Hplay _].
  apply Hplay. reflexivity.
Defined.

(** X11: in every reachable game the score is the number of segments
    plus the pending growth minus two, the pending growth is 0 or 1, and
    the score lies between 0 and COLUMNS * ROWS. *)
Theorem score_counts_growth (g : Game) :
  reachable g →
  score g = Z.of_nat (length (body (snake g))) + _pending_growth (snake g) - 2 ∧
  0 ≤ _pending_growth (snake g) ≤ 1 ∧
  0 ≤ score g ≤ COLUMNS * ROWS.
Proof.
  intros Hr.
  destruct (reachable_play_inv g Hr) as [_ _ _ (h & n & r & Hb & _) _ Hp Hs Htg Htn Hpl].
  split; [lia |]. split; [exact Hp |].
  pose proof (grid_pigeonhole _ Htn Htg) as Hlen.
  rewrite Hb in *. cbn [drop length] in *.
  assert (0 ≤ COLUMNS * ROWS) by (vm_compute; discriminate).
  split; [lia |].
  destruct (game_over g) eqn:Hgo; [lia |].
  destruct (Hpl eq_refl) as [Hgrid Hnd].
  pose proof (grid_pigeonhole _ Hnd Hgrid) as Hlen'. cbn [length] in Hlen'. lia.
Qed.

Lemma score_counts_growth_witness :
  score full_board = Z.of_nat (length (body (snake full_board))) + 1 - 2.
Proof.
  destruct (score_counts_growth full_board full_board_reachable) as [Hs _].
  exact Hs.
Defined.

(** X12: in every reachable game the food is a cell of the grid. *)
Theorem food_on_grid (g : Game) : reachable g → in_grid (pos (food g)).
Proof. intros Hr. by destruct (reachable_inv g Hr). Qed.

Lemma food_on_grid_witness : in_grid (0, 1).
Proof.
  apply (food_on_grid (mkGame (Snake_init (7, 10)) (mkFood (0, 1)) 0 true false)).
  apply (reach_new (λ _, 1%nat) _ (λ _, 1%nat)). vm_compute. reflexivity.
Defined.

(** X13: once the game is over, a frame without a restart key changes
    neither the snake nor the food nor the score, draws nothing from the
    generator and leaves the game over; direction keys are ignored and
    only [running] can change, and only to false. *)
Theorem game_over_freezes (evs : list Event) (g : Game) (rng : Rng) :
  game_over g = true → Forall (λ e, ¬ is_restart e) evs →
  ∃ b, frame evs g rng = Some (mkGame (snake g) (food g) (score g) b true, rng)
       ∧ (b = true → running g = true).
Proof.
  revert g. induction evs as [| e evs IH]; intros g Hgo Hnr.
  - exists (running g). unfold frame, bind. cbn [handle_events]. unfold ret.
    rewrite update_game_over by done. destruct g. simpl in *. by subst.
  - apply Forall_cons in Hnr as [Hne Hnr].
    destruct (handle_event_over e g rng Hgo Hne) as (b1 & He & Hb1).
    destruct (IH (mkGame (snake g) (food g) (score g) b1 true) eq_refl Hnr)
      as (b & Hf & Hb).
    exists b. split; [| auto].
    unfold frame, bind in *. cbn [handle_events]. unfold bind. by rewrite He.
Qed.

Lemma game_over_freezes_witness :
  ∃ b, frame [KEYDOWN K_UP; KEYDOWN K_a; OTHER]
         (mkGame (mkSnake [(30, 3); (29, 3)] RIGHT 0 RIGHT) (mkFood (0, 1)) 4 true true)
         (λ _, 0%nat)
       = Some (mkGame (mkSnake [(30, 3); (29, 3)] RIGHT 0 RIGHT) (mkFood (0, 1)) 4 b true,
               λ _, 0%nat).
Proof.
  destruct (game_over_freezes [KEYDOWN K_UP; KEYDOWN K_a; OTHER]
              (mkGame (mkSnake [(30, 3); (29, 3)] RIGHT 0 RIGHT) (mkFood (0, 1)) 4 true true)
              (λ _, 0%nat) eq_refl) as (b & Hf & _).
  - repeat constructor; intros [H | H]; discriminate.
  - exists b. exact Hf.
Defined.

(** X14: RETURN or r on a finished game starts a new one: the start
    snake, a food cell of the grid off that snake, score 0, not over,
    [running] untouched; during play the same keys do nothing. *)
Theorem restart_spec (key : Key) (g : Game) (rng : Rng) :
  key = K_RETURN ∨ key = K_r →
  (game_over g = true →
     ∃ f rng', handle_event (KEYDOWN key) g rng
         = Some (mkGame (Snake_init (COLUMNS `div` 4, ROWS `div` 2)) f 0
                        (running g) false, rng') ∧
       in_grid (pos f) ∧
       pos f ∉ body (Snake_init (COLUMNS `div` 4, ROWS `div` 2))) ∧
  (game_over g = false → handle_event (KEYDOWN key) g rng = Some (g, rng)).
Proof.
  intros Hkey. split; intros Hgo.
  - destruct (start_new_game_spec rng) as (f & rng' & Hs & Hg & Hn).
    exists f, rng'. split; [| done].
    destruct Hkey as [-> | ->]; simpl; rewrite Hgo; simpl;
      unfold bind, ret; by rewrite Hs.
  - destruct Hkey as [-> | ->]; simpl; by rewrite Hgo.
Qed.

Lemma restart_spec_witness :
  ∃ f rng', handle_event (KEYDOWN K_r)
      (mkGame (mkSnake [(30, 3); (29, 3)] RIGHT 0 RIGHT) (mkFood (0, 1)) 4 true true)
      (λ _, 0%nat)
    = Some (mkGame (Snake_init (COLUMNS `div` 4, ROWS `div` 2)) f 0 true false, rng').
Proof.
  destruct (restart_spec K_r
              (mkGame (mkSnake [(30, 3); (29, 3)] RIGHT 0 RIGHT) (mkFood (0, 1)) 4 true true)
              (λ _, 0%nat) (or_intror eq_refl)) as [Hover _].
  destruct (Hover eq_refl) as (f & rng' & He & _). by exists f, rng'.
Defined.

(** X15: a frame that receives QUIT or ESCAPE ends with [running]
    false, whatever else arrives in it, and [game_loop] runs no frame
    after it. *)
Theorem quit_is_final (evs : list Event) (g : Game) (rng : Rng)
    (g' : Game) (rng' : Rng) :
  Exists is_quit evs → frame evs g rng = Some (g', rng') →
  running g' = false ∧
  ∀ rest rng2, frames rest g' rng2 = Some (g', rng2).
Proof.
  intros Hq Hf.
  assert (running g' = false) as Hstop; last first.
  { split; [exact Hstop |]. intros [| evs' rest] rng2; [done |].
    cbn [frames]. by rewrite Hstop. }
  unfold frame, bind in Hf.
  destruct (handle_events evs g rng) as [[g1 rng1] |] eqn:He; [| discriminate].
  apply update_running in Hf. rewrite Hf. clear Hf g' rng'.
  assert (∀ evs g rng g1 rng1, handle_events evs g rng = Some (g1, rng1) →
            running g = false → running g1 = false) as Hstay.
  { clear. induction evs as [| e evs IH]; intros g rng g1 rng1.
    - by intros [= <- _].
    - cbn [handle_events]. unfold bind.
      destruct (handle_event e g rng) as [[g2 rng2] |] eqn:He; [| discriminate].
      intros Hes Hr. eapply IH; [exact Hes |].
      apply handle_event_running in He as [He _].
      destruct (running g2); [| done]. by rewrite He in Hr. }
  revert g rng He. induction Hq as [e evs Hq | e evs _ IH]; intros g rng;
    cbn [handle_events]; unfold bind;
    destruct (handle_event e g rng) as [[g2 rng2] |] eqn:He; try discriminate.
  - intros Hes. eapply Hstay; [exact Hes |].
    apply handle_event_running in He as [_ He]. by apply He.
  - apply IH.
Qed.

Lemma quit_is_final_witness :
  frames [[KEYDOWN K_DOWN]]
    (mkGame (mkSnake [(7, 9); (7, 10)] UP 0 UP) (mkFood (0, 1)) 0 false false)
    (λ _, 0%nat)
  = Some (mkGame (mkSnake [(7, 9); (7, 10)] UP 0 UP) (mkFood (0, 1)) 0 false false,
          λ _, 0%nat).
Proof.
  apply (quit_is_final [KEYDOWN K_UP; QUIT; KEYDOWN K_LEFT]
           (mkGame (Snake_init (7, 10)) (mkFood (0, 1)) 0 true false) (λ _, 0%nat)
           (mkGame (mkSnake [(7, 9); (7, 10)] UP 0 UP) (mkFood (0, 1)) 0 false false)
           (λ _, 0%nat)).
  - right. left. by left.
  - vm_compute. reflexivity.
Defined.

(** X16: on a tick of a playing game whose moved head is on the food,
    with a grid cell left free, the score goes up by exactly one, one
    unit of growth is added, and the new food is a grid cell off the
    moved snake, hence not the cell just eaten; the next [move] then
    lengthens the body by one. *)
Theorem eating_tick (g : Game) (s1 : Snake) (rng : Rng) :
  game_over g = false → 0 ≤ _pending_growth (snake g) →
  move (snake g) = Some s1 → head s1 = Some (pos (food g)) →
  ¬ board_full (body s1) →
  ∃ f' rng' over,
    update g rng = Some (mkGame (grow 1 s1) f' (score g + 1) (running g) over, rng') ∧
    in_grid (pos f') ∧ (pos f' ∉ body s1) ∧ (pos f' ≠ pos (food g)) ∧
    _pending_growth (grow 1 s1) = _pending_growth s1 + 1 ∧
    ∃ s2, move (grow 1 s1) = Some s2 ∧ length (body s2) = S (length (body s1)).
Proof.
  intros Hgo Hpend Hm Hh Hfree.
  destruct (move_body _ _ Hm) as (nh & rest & Hb1 & Hh1 & _ & _ & _ & Hp1).
  rewrite Hh in Hh1. injection Hh1 as <-.
  rewrite (update_playing g s1 _ rest rng Hgo Hm Hb1).
  rewrite bool_decide_eq_true_2 by reflexivity.
  destruct (random_free_cell_free (occupies (grow 1 s1)) rng)
    as (p & rng' & Hr & Hpg & Hpn).
  { intros Hnil. apply Hfree. intros c Hc.
    apply (elem_of_occupies c (grow 1 s1)). by apply free_cells_nil. }
  rewrite Hr. exists (mkFood p), rng', (collided (pos (food g)) rest).
  assert (p ∉ body s1) as Hoff
    by (intros Hin; apply Hpn; by apply elem_of_occupies).
  split; [reflexivity |]. split; [exact Hpg |]. split; [exact Hoff |].
  split; [| split; [reflexivity |]].
  - simpl. intros ->. apply Hoff. rewrite Hb1. left.
  - destruct (move_length_cases (grow 1 s1)) as (s2 & Hm2 & _ & Hgrow & _).
    { simpl. by rewrite Hb1. }
    exists s2. split; [exact Hm2 |]. apply Hgrow. simpl. specialize (Hp1 Hpend). lia.
Qed.

Lemma eating_tick_witness :
  ∃ f' rng' over,
    update (mkGame (Snake_init (7, 10)) (mkFood (8, 10)) 0 true false) (λ _, 0%nat)
      = Some (mkGame (mkSnake [(8, 10); (7, 10)] RIGHT 1 RIGHT) f' 1 true over, rng').
Proof.
  destruct (eating_tick (mkGame (Snake_init (7, 10)) (mkFood (8, 10)) 0 true false)
              (mkSnake [(8, 10); (7, 10)] RIGHT 0 RIGHT) (λ _, 0%nat)
              eq_refl) as (f' & rng' & over & Hu & _).
  - simpl. lia.
  - reflexivity.
  - reflexivity.
  - intros Hfull. specialize (Hfull (0, 0) origin_in_grid). simpl in Hfull.
    repeat (apply elem_of_cons in Hfull as [Hfull | Hfull]; [discriminate |]).
    by apply not_elem_of_nil in Hfull.
  - by exists f', rng', over.
Defined.

(** X17: on a tick of a playing game whose moved head is not on the
    food, the update only moves the snake: food, score and [running]
    stay, nothing is drawn from the generator, and the game is over
    afterwards exactly when the moved snake hits a wall or itself. *)
Theorem quiet_tick (g : Game) (s1 : Snake) (wall self : bool) (rng : Rng) :
  game_over g = false → move (snake g) = Some s1 →
  hits_wall s1 = Some wall → hits_self s1 = Some self →
  head s1 ≠ Some (pos (food g)) →
  update g rng = Some (mkGame s1 (food g) (score g) (running g) (wall || self), rng).
Proof.
  intros Hgo Hm Hw Hs Hoff.
  destruct (move_body _ _ Hm) as (nh & rest & Hb1 & Hh1 & _).
  rewrite (hits_wall_head s1 nh rest Hb1) in Hw.
  rewrite (hits_self_head s1 nh rest Hb1) in Hs.
  injection Hw as <-. injection Hs as <-.
  rewrite (update_playing g s1 nh rest rng Hgo Hm Hb1).
  rewrite bool_decide_eq_false_2; [reflexivity |]. congruence.
Qed.

Lemma quiet_tick_witness :
  update (mkGame (Snake_init (7, 10)) (mkFood (0, 1)) 0 true false) (λ _, 0%nat)
  = Some (mkGame (mkSnake [(8, 10); (7, 10)] RIGHT 0 RIGHT) (mkFood (0, 1)) 0 true false,
          λ _, 0%nat).
Proof.
  apply (quiet_tick (mkGame (Snake_init (7, 10)) (mkFood (0, 1)) 0 true false)
           (mkSnake [(8, 10); (7, 10)] RIGHT 0 RIGHT) false false (λ _, 0%nat)).
  - reflexivity.
  - reflexivity.
  - vm_compute. reflexivity.
  - vm_compute. reflexivity.
  - simpl. discriminate.
Defined.

(** X18: a reachable game that is not over and whose snake covers the
    whole grid is over after its next frame, whatever the keys: there is
    no won state, the full board ends in a collision. *)
Theorem full_board_ends_game (g : Game) (evs : list Event) (rng : Rng)
    (g' : Game) (rng' : Rng) :
  reachable g → game_over g = false → board_full (body (snake g)) →
  frame evs g rng = Some (g', rng') → game_over g' = true.
Proof.
  intros Hr Hgo Hfull Hf.
  destruct (reachable_inv g Hr) as [Hlen _ Hfg Hfood].
  assert (1 ≤ _pending_growth (snake g)) as Hpend.
  { destruct Hfood as [Hoff | (_ & _ & [Hover | Hp])]; [| congruence | exact Hp].
    destruct Hoff. by apply Hfull. }
  destruct (handle_events_playing evs g rng Hgo)
    as (s' & b & He & Hb & _ & Hp & _).
  unfold frame, bind in Hf. rewrite He in Hf.
  destruct (move_is_Some s') as [s1 Hm].
  { rewrite Hb. destruct (body (snake g)); [simpl in Hlen; lia | done]. }
  destruct (move_body _ _ Hm) as (nh & rest & Hb1 & _ & _ & _ & Hkeep & _).
  rewrite (update_playing (mkGame s' (food g) (score g) b false) s1 nh rest rng
             eq_refl Hm Hb1) in Hf.
  assert (collided nh rest = true) as Hcol.
  { apply collided_full. rewrite Hkeep by lia. by rewrite Hb. }
  rewrite Hcol in Hf. case_bool_decide.
  - destruct (_random_free_cell _ rng) as [[p rng1] |]; [| discriminate].
    by injection Hf as <- _.
  - by injection Hf as <- _.
Qed.

Lemma full_board_ends_game_witness :
  ∃ g' rng', frame [KEYDOWN K_DOWN] full_board (λ _, 0%nat) = Some (g', rng') ∧
             game_over g' = true.
Proof.
  destruct (frame_inv [KEYDOWN K_DOWN] full_board (λ _, 0%nat)
              (reachable_inv full_board full_board_reachable))
    as (g' & rng' & Hf & _).
  exists g', rng'. split; [exact Hf |].
  apply (full_board_ends_game full_board [KEYDOWN K_DOWN] (λ _, 0%nat) g' rng'
           full_board_reachable eq_refl tour_full Hf).
Defined.

(** X19: while the game is not over, the events of a frame leave the
    body, the committed direction, the pending growth, the food and the
    score alone and draw nothing; they can only clear [running] and
    replace the buffered direction, and never by the opposite of the
    committed one. *)
Theorem keys_only_buffer (evs : list Event) (g : Game) (rng : Rng) :
  game_over g = false →
  ∃ s' b, handle_events evs g rng
            = Some (mkGame s' (food g) (score g) b false, rng) ∧
    body s' = body (snake g) ∧ direction s' = direction (snake g) ∧
    _pending_growth s' = _pending_growth (snake g) ∧
    (b = true → running g = true) ∧
    (_next_direction s' = _next_direction (snake g) ∨
     _next_direction s' ≠ opposite (direction (snake g))).
Proof. apply handle_events_playing. Qed.

Lemma keys_only_buffer_witness :
  ∃ s' b, handle_events [KEYDOWN K_UP; KEYDOWN K_LEFT; KEYDOWN K_r]
            (mkGame (Snake_init (7, 10)) (mkFood (0, 1)) 0 true false) (λ _, 0%nat)
          = Some (mkGame s' (mkFood (0, 1)) 0 b false, λ _, 0%nat)
    ∧ body s' = [(7, 10); (6, 10)].
Proof.
  destruct (keys_only_buffer [KEYDOWN K_UP; KEYDOWN K_LEFT; KEYDOWN K_r]
              (mkGame (Snake_init (7, 10)) (mkFood (0, 1)) 0 true false) (λ _, 0%nat)
              eq_refl) as (s' & b & He & Hb & _).
  by exists s', b.
Defined.

(** ** Drawing: cells, grid lines and the window *)

Lemma cell_rect_on_screen (c : Cell) : on_screen (cell_rect c) ↔ in_grid c.
Proof.
  destruct c as [x y]. unfold on_screen, in_grid, cell_rect. simpl.
  change COLUMNS with 30. change ROWS with 20.
  unfold SCREEN_WIDTH, SCREEN_HEIGHT, GRID_SIZE. lia.
Qed.

Lemma cell_rect_overlap (c c' : Cell) :
  overlap (cell_rect c) (cell_rect c') ↔ c = c'.
Proof.
  destruct c as [x y], c' as [x' y']. unfold overlap, cell_rect. simpl.
  unfold GRID_SIZE. split.
  - intros H. f_equal; lia.
  - intros [= -> ->]. lia.
Qed.


Lemma grid_ranges :
  range_step SCREEN_WIDTH GRID_SIZE = (λ i, i * GRID_SIZE) <$> seqZ 0 COLUMNS ∧
  range_step SCREEN_HEIGHT GRID_SIZE = (λ i, i * GRID_SIZE) <$> seqZ 0 ROWS.
Proof. split; reflexivity. Qed.

Lemma elem_of_draw_grid (op : DrawOp) :
  op ∈ draw_grid ↔
    (∃ i, 0 ≤ i < COLUMNS ∧
       op = Line COLOR_GRID (i * GRID_SIZE, 0) (i * GRID_SIZE, SCREEN_HEIGHT) 1) ∨
    (∃ j, 0 ≤ j < ROWS ∧
       op = Line COLOR_GRID (0, j * GRID_SIZE) (SCREEN_WIDTH, j * GRID_SIZE) 1).
Proof.
  unfold draw_grid. destruct grid_ranges as [-> ->].
  rewrite elem_of_app, !list_elem_of_fmap. split.
  - intros [(x & -> & Hx) | (y & -> & Hy)].
    + apply list_elem_of_fmap in Hx as (i & -> & Hi). apply elem_of_seqZ in Hi.
      left. exists i. split; [lia | done].
    + apply list_elem_of_fmap in Hy as (j & -> & Hj). apply elem_of_seqZ in Hj.
      right. exists j. split; [lia | done].
  - intros [(i & Hi & ->) | (j & Hj & ->)].
    + left. eexists. split; [reflexivity |]. apply list_elem_of_fmap.
      exists i. split; [done |]. apply elem_of_seqZ. lia.
    + right. eexists. split; [reflexivity |]. apply list_elem_of_fmap.
      exists j. split; [done |]. apply elem_of_seqZ. lia.
Qed.

(** X21: [draw_grid] draws COLUMNS + ROWS lines: for every column of
    the grid one vertical line along its left edge, from the top to the
    bottom of the window, and for every row one horizontal line along
    its top edge; so the left and top edges of every cell rectangle lie
    on a grid line. *)
Theorem draw_grid_spec :
  length draw_grid = Z.to_nat (COLUMNS + ROWS) ∧
  (∀ op, op ∈ draw_grid ↔
     (∃ i, 0 ≤ i < COLUMNS ∧
        op = Line COLOR_GRID (i * GRID_SIZE, 0) (i * GRID_SIZE, SCREEN_HEIGHT) 1) ∨
     (∃ j, 0 ≤ j < ROWS ∧
        op = Line COLOR_GRID (0, j * GRID_SIZE) (SCREEN_WIDTH, j * GRID_SIZE) 1)) ∧
  (∀ c, in_grid c →
     Line COLOR_GRID (rect_left (cell_rect c), 0)
                     (rect_left (cell_rect c), SCREEN_HEIGHT) 1 ∈ draw_grid ∧
     Line COLOR_GRID (0, rect_top (cell_rect c))
                     (SCREEN_WIDTH, rect_top (cell_rect c)) 1 ∈ draw_grid).
Proof.
  split; [vm_compute; reflexivity |]. split; [exact elem_of_draw_grid |].
  intros [x y] [Hx Hy]. simpl in Hx, Hy. split; apply elem_of_draw_grid.
  - left. by exists x.
  - right. by exists y.
Qed.

Lemma draw_grid_spec_witness :
  Line COLOR_GRID (140, 0) (140, 400) 1 ∈ draw_grid.
Proof.
  destruct draw_grid_spec as (_ & _ & Hcell).
  apply (Hcell (7, 10)). vm_compute. intuition discriminate.
Defined.

Lemma draw_rects (g : Game) (color : Color) (r : Rect) :
  DrawRect color r ∈ draw g →
  (color = COLOR_FOOD ∧ r = cell_rect (pos (food g))) ∨
  (color = COLOR_SNAKE_HEAD ∧ ∃ h, head (snake g) = Some h ∧ r = cell_rect h) ∨
  (color = COLOR_SNAKE ∧ ∃ c, c ∈ drop 1 (body (snake g)) ∧ r = cell_rect c).
Proof.
  unfold draw, render_text, draw_rect_cell.
  rewrite !elem_of_app. intros [H | [H | [H | [H | [H | H]]]]].
  - apply list_elem_of_singleton in H. discriminate.
  - apply elem_of_draw_grid in H as [(i & _ & H) | (j & _ & H)]; discriminate.
  - apply list_elem_of_singleton in H. injection H as -> ->. by left.
  - right. unfold head. destruct (body (snake g)) as [| h t]; [by apply not_elem_of_nil in H |].
    apply elem_of_app in H as [H | H].
    + apply list_elem_of_singleton in H. injection H as -> ->. left. eauto.
    + apply list_elem_of_bind in H as (c & H & Hc).
      apply list_elem_of_singleton in H. injection H as -> ->. right. eauto.
  - apply list_elem_of_singleton in H. discriminate.
  - destruct (game_over g); [| by apply not_elem_of_nil in H].
    rewrite !elem_of_app, !list_elem_of_singleton in H.
    destruct H as [H | [H | H]]; discriminate.
Qed.

(** X22: in every reachable game every rectangle drawn in a frame, the
    head's apart, lies within the window; while the game is not over the
    head's does too, and the rectangles of the snake's segments are
    pairwise disjoint. *)
Theorem draw_stays_on_screen (g : Game) :
  reachable g →
  (∀ color r, DrawRect color r ∈ draw g →
     color ≠ COLOR_SNAKE_HEAD → on_screen r) ∧
  (game_over g = false →
     (∀ color r, DrawRect color r ∈ draw g → on_screen r) ∧
     (∀ i j c c', body (snake g) !! i = Some c → body (snake g) !! j = Some c' →
        overlap (cell_rect c) (cell_rect c') → i = j)).
Proof.
  intros Hr.
  destruct (reachable_play_inv g Hr) as [_ _ _ _ _ _ _ Htg _ Hpl].
  destruct (reachable_inv g Hr) as [_ _ Hfg _].
  assert (∀ c, in_grid c → on_screen (cell_rect c)) as Hon
    by (intros c Hc; by apply cell_rect_on_screen).
  split.
  - intros color r Hin Hne.
    apply draw_rects in Hin as [[-> ->] | [[-> _] | (-> & c & Hc & ->)]].
    + by apply Hon.
    + done.
    + apply Hon. by eapply Forall_forall in Htg.
  - intros Hgo. destruct (Hpl Hgo) as [Hgrid Hnd]. split.
    + intros color r Hin.
      apply draw_rects in Hin as [[-> ->] | [(-> & h & Hh & ->) | (-> & c & Hc & ->)]].
      * by apply Hon.
      * apply Hon. eapply Forall_forall in Hgrid; [exact Hgrid |].
        unfold head in Hh. by eapply list_elem_of_lookup_2.
      * apply Hon. by eapply Forall_forall in Htg.
    + intros i j c c' Hi Hj Hov. apply cell_rect_overlap in Hov as <-.
      by eapply NoDup_lookup.
Qed.

Lemma draw_stays_on_screen_witness : on_screen (cell_rect (6, 10)).
Proof.
  destruct (draw_stays_on_screen
              (mkGame (Snake_init (7, 10)) (mkFood (0, 1)) 0 true false))
    as [Hall _].
  - apply (reach_new (λ _, 1%nat) _ (λ _, 1%nat)). vm_compute. reflexivity.
  - apply (Hall COLOR_SNAKE); [| discriminate].
    unfold draw. rewrite !elem_of_app. do 3 right. left.
    simpl. right. left.
Defined.
